(** * Sudoku engine of [src/script.js]: generator, solver, carver, play session

    The board is an array of 81 numbers, [0] standing for an empty cell.
    Cell values are modelled as [Z], indices as [nat], arrays as lists read
    with [!!] (an out-of-range read is JavaScript's [undefined], here [None])
    and written in place with [<[i:=v]>].  Arrays that are shared between
    functions ([solved], [puzzle]) live in a store of locations, so that
    [slice] really makes a copy and writes really hit one array. *)

From stdpp Require Import base list gmap strings sorting.
From Stdlib Require Import ZArith Lia ZifyNat.

#[local] Set Warnings "-clear-no-such-hyp".

(** ** Geometry of the board *)

Definition row (i : nat) : nat := i / 9.
Definition col (i : nat) : nat := i mod 9.
Definition blockIndex (r c : nat) : nat := r / 3 * 3 + c / 3.
Definition block (i : nat) : nat := blockIndex (row i) (col i).

(** Two cells share a row, a column or a 3×3 block. *)
Definition same_unit (i j : nat) : Prop :=
  row i = row j ∨ col i = col j ∨ block i = block j.

Definition same_unitb (i j : nat) : bool :=
  (row i =? row j) || (col i =? col j) || (block i =? block j).

(** [g[k] === val]: an out-of-range read yields [undefined], never a number. *)
Definition cell_is (g : list Z) (k : nat) (val : Z) : bool :=
  bool_decide (g !! k = Some val).

(** ** Random numbers

    [Math.random] is an oracle: the sequence of draws still to come.
    [random_below n] stands for [Math.floor(Math.random() * n)], an integer
    in [0, n). *)

Definition rand : Type := nat → nat.

Definition random_below (n : nat) (r : rand) : nat * rand :=
  (r 0 mod n, λ k, r (S k)).

(** ** [shuffle] (Fisher–Yates, in place) *)

(** [[a[i], a[j]] = [a[j], a[i]]] *)
Definition swap {A} (a : list A) (i j : nat) : list A :=
  match a !! i, a !! j with
  | Some x, Some y => <[j:=x]> (<[i:=y]> a)
  | _, _ => a
  end.

(** The loop [for (i = ...; i > 0; i--)], entered at [i]. *)
Fixpoint shuffle_from {A} (i : nat) (a : list A) (r : rand) : list A * rand :=
  match i with
  | 0 => (a, r)
  | S i' =>
      let '(j, r') := random_below (i + 1) r in
      shuffle_from i' (swap a i j) r'
  end.

Definition shuffle {A} (a : list A) (r : rand) : list A * rand :=
  shuffle_from (length a - 1) a r.

(** ** The solver: [solve] with its local functions *)

(** Running out of fuel is kept apart from every result of the program. *)
Inductive outcome (A : Type) : Type :=
  | Done (a : A)
  | OutOfFuel.
Arguments Done {A} a.
Arguments OutOfFuel {A}.

(** [findEmpty]: the first index below 81 holding [0]; [None] is the [-1]. *)
Fixpoint findEmpty_from (g : list Z) (ixs : list nat) : option nat :=
  match ixs with
  | [] => None
  | i :: ixs' => if cell_is g i 0 then Some i else findEmpty_from g ixs'
  end.

Definition findEmpty (g : list Z) : option nat := findEmpty_from g (seq 0 81).

(** First loop of [valid]: row and column, [true] when it runs to its end. *)
Fixpoint valid_lines (g : list Z) (r c : nat) (val : Z) (ixs : list nat) : bool :=
  match ixs with
  | [] => true
  | i :: ixs' =>
      if cell_is g (r * 9 + i) val then false
      else if cell_is g (i * 9 + c) val then false
      else valid_lines g r c val ixs'
  end.

(** Second loop of [valid]: the block, row by row. *)
Fixpoint valid_block_row (g : list Z) (rr : nat) (val : Z) (ccs : list nat) : bool :=
  match ccs with
  | [] => true
  | cc :: ccs' =>
      if cell_is g (rr * 9 + cc) val then false
      else valid_block_row g rr val ccs'
  end.

Fixpoint valid_block (g : list Z) (val : Z) (rrs ccs : list nat) : bool :=
  match rrs with
  | [] => true
  | rr :: rrs' =>
      if valid_block_row g rr val ccs then valid_block g val rrs' ccs
      else false
  end.

Definition valid (g : list Z) (pos : nat) (val : Z) : bool :=
  let r := pos / 9 in
  let c := pos mod 9 in
  let br := r / 3 in
  let bc := c / 3 in
  if valid_lines g r c val (seq 0 9)
  then valid_block g val (seq (br * 3) 3) (seq (bc * 3) 3)
  else false.

Definition digits : list Z := [1; 2; 3; 4; 5; 6; 7; 8; 9]%Z.

(** The candidate loop of [backtrack]; [rec] is the recursive call.  The
    array is threaded through: a failed branch hands it back and the loop
    writes [0] at [pos] before the next candidate. *)
Fixpoint backtrack_loop (rec : list Z → outcome (bool * list Z))
    (pos : nat) (ns : list Z) (g : list Z) : outcome (bool * list Z) :=
  match ns with
  | [] => Done (false, g)
  | n :: ns' =>
      if valid g pos n then
        match rec (<[pos:=n]> g) with
        | Done (true, g') => Done (true, g')
        | Done (false, g') => backtrack_loop rec pos ns' (<[pos:=0%Z]> g')
        | OutOfFuel => OutOfFuel
        end
      else backtrack_loop rec pos ns' g
  end.

Fixpoint backtrack (fuel : nat) (g : list Z) : outcome (bool * list Z) :=
  match findEmpty g with
  | None => Done (true, g)
  | Some pos =>
      match fuel with
      | 0 => OutOfFuel
      | S fuel' => backtrack_loop (backtrack fuel') pos digits g
      end
  end.

(** ** The store of arrays *)

Abbreviation loc := nat (only parsing).
Abbreviation store := (list (list Z)) (only parsing).

(** [a.slice()]: a fresh array with the cells of [a]. *)
Definition slice (a : loc) (σ : store) : loc * store :=
  (length σ, σ ++ [σ !!! a]).

(** [a[i] = v] *)
Definition write (a : loc) (i : nat) (v : Z) (σ : store) : store :=
  alter (<[i:=v]>) a σ.

(** [a[i]] for an index in range. *)
Definition read (a : loc) (i : nat) (σ : store) : Z := (σ !!! a) !!! i.

(** [solve(grid)]: the search runs on the copy [g]; the recursion is at most
    81 deep, one level per empty cell. *)
Definition solve (grid : loc) (σ : store) : outcome (option loc * store) :=
  let '(g, σ1) := slice grid σ in
  match backtrack 81 (σ1 !!! g) with
  | Done (solvable, a) =>
      Done (if solvable : bool then Some g else None, <[g:=a]> σ1)
  | OutOfFuel => OutOfFuel
  end.

(** ** The carver: [makePuzzle] *)

Fixpoint makePuzzle_loop (puzzle : loc) (removals : Z) (order : list nat)
    (removed : Z) (σ : store) : outcome store :=
  match order with
  | [] => Done σ
  | idx :: order' =>
      if (removed >=? removals)%Z then Done σ
      else
        let backup := read puzzle idx σ in
        let σ1 := write puzzle idx 0 σ in
        match solve puzzle σ1 with
        | Done (None, σ2) =>
            makePuzzle_loop puzzle removals order' removed
              (write puzzle idx backup σ2)
        | Done (Some _, σ2) =>
            makePuzzle_loop puzzle removals order' (removed + 1) σ2
        | OutOfFuel => OutOfFuel
        end
  end.

Definition makePuzzle (solved : loc) (removals : Z) (r : rand) (σ : store)
    : outcome (loc * rand * store) :=
  let '(puzzle, σ1) := slice solved σ in
  let '(order, r') := shuffle (seq 0 81) r in
  match makePuzzle_loop puzzle removals order 0 σ1 with
  | Done σ2 => Done (puzzle, r', σ2)
  | OutOfFuel => OutOfFuel
  end.

(** The reference solution quoted in the documentation. *)
Definition reference : list Z :=
  [5;3;4;6;7;8;9;1;2; 6;7;2;1;9;5;3;4;8; 1;9;8;3;4;2;5;6;7;
   8;5;9;7;6;1;4;2;3; 4;2;6;8;5;3;7;9;1; 7;1;3;9;2;4;8;5;6;
   9;6;1;5;3;7;2;8;4; 2;8;7;4;1;9;6;3;5; 3;4;5;2;8;6;1;7;9]%Z.

(** ** The generator: [generateSolved] *)

(** The grid under construction with the three families of [Set]s. *)
Record gen_state : Type := GenState {
  grid : list Z;
  rows : list (gset Z);
  cols : list (gset Z);
  blocks : list (gset Z)
}.

(** [sets[k].has(n)], [sets[k].add(n)], [sets[k].delete(n)] *)
Definition set_has (sets : list (gset Z)) (k : nat) (n : Z) : bool :=
  bool_decide (n ∈ sets !!! k).
Definition set_add (sets : list (gset Z)) (k : nat) (n : Z) : list (gset Z) :=
  alter (λ s, {[n]} ∪ s) k sets.
Definition set_delete (sets : list (gset Z)) (k : nat) (n : Z) : list (gset Z) :=
  alter (λ s, s ∖ {[n]}) k sets.

(** [grid[pos] = n; rows[r].add(n); cols[c].add(n); blocks[..].add(n)] *)
Definition put (pos : nat) (n : Z) (st : gen_state) : gen_state :=
  let r := pos / 9 in
  let c := pos mod 9 in
  {| grid := <[pos:=n]> (grid st);
     rows := set_add (rows st) r n;
     cols := set_add (cols st) c n;
     blocks := set_add (blocks st) (blockIndex r c) n |}.

(** [grid[pos] = 0; rows[r].delete(n); cols[c].delete(n); blocks[..].delete(n)] *)
Definition unput (pos : nat) (n : Z) (st : gen_state) : gen_state :=
  let r := pos / 9 in
  let c := pos mod 9 in
  {| grid := <[pos:=0%Z]> (grid st);
     rows := set_delete (rows st) r n;
     cols := set_delete (cols st) c n;
     blocks := set_delete (blocks st) (blockIndex r c) n |}.

Definition taken (pos : nat) (n : Z) (st : gen_state) : bool :=
  let r := pos / 9 in
  let c := pos mod 9 in
  set_has (rows st) r n || set_has (cols st) c n
  || set_has (blocks st) (blockIndex r c) n.

(** The loop [for (const n of nums)] of [place]; [rec] is [place(pos + 1)]. *)
Fixpoint place_loop (rec : gen_state → rand → outcome (bool * gen_state * rand))
    (pos : nat) (nums : list Z) (st : gen_state) (r : rand)
    : outcome (bool * gen_state * rand) :=
  match nums with
  | [] => Done (false, st, r)
  | n :: nums' =>
      if taken pos n st then place_loop rec pos nums' st r
      else
        match rec (put pos n st) r with
        | Done (true, st', r') => Done (true, st', r')
        | Done (false, st', r') => place_loop rec pos nums' (unput pos n st') r'
        | OutOfFuel => OutOfFuel
        end
  end.

Fixpoint place (fuel : nat) (pos : nat) (st : gen_state) (r : rand)
    : outcome (bool * gen_state * rand) :=
  if pos =? 81 then Done (true, st, r)
  else
    match fuel with
    | 0 => OutOfFuel
    | S fuel' =>
        let '(nums, r1) := shuffle digits r in
        place_loop (place fuel' (pos + 1)) pos nums st r1
    end.

Definition gen_init : gen_state :=
  {| grid := replicate 81 0%Z;
     rows := replicate 9 ∅;
     cols := replicate 9 ∅;
     blocks := replicate 9 ∅ |}.

(** [generateSolved()]: the result of [place(0)] is dropped, the grid is
    returned whatever it holds.  [place] recurses once per cell. *)
Definition generateSolved (r : rand) (σ : store) : outcome (loc * rand * store) :=
  match place 81 0 gen_init r with
  | Done (_, st, r') => Done (length σ, r', σ ++ [grid st])
  | OutOfFuel => OutOfFuel
  end.

(** ** The play session *)

(** [updateConflicts]: the set of cells carrying the class [conflict].  The
    first loop strips the class from all 81 cells, so marking starts from the
    empty set. *)
Fixpoint mark_lines (st : list Z) (i r c : nat) (val : Z) (js : list nat)
    (marks : gset nat) : gset nat :=
  match js with
  | [] => marks
  | j :: js' =>
      let rc := r * 9 + j in
      let marks1 :=
        if bool_decide (rc ≠ i) && cell_is st rc val then {[i]} ∪ marks else marks in
      let cc := j * 9 + c in
      let marks2 :=
        if bool_decide (cc ≠ i) && cell_is st cc val then {[i]} ∪ marks1 else marks1 in
      mark_lines st i r c val js' marks2
  end.

Fixpoint mark_block_row (st : list Z) (i rr : nat) (val : Z) (ccs : list nat)
    (marks : gset nat) : gset nat :=
  match ccs with
  | [] => marks
  | cc :: ccs' =>
      let k := rr * 9 + cc in
      mark_block_row st i rr val ccs'
        (if bool_decide (k ≠ i) && cell_is st k val then {[i]} ∪ marks else marks)
  end.

Fixpoint mark_block (st : list Z) (i : nat) (val : Z) (rrs ccs : list nat)
    (marks : gset nat) : gset nat :=
  match rrs with
  | [] => marks
  | rr :: rrs' => mark_block st i val rrs' ccs (mark_block_row st i rr val ccs marks)
  end.

Fixpoint mark_cells (st : list Z) (ixs : list nat) (marks : gset nat) : gset nat :=
  match ixs with
  | [] => marks
  | i :: ixs' =>
      match st !! i with
      | Some val =>
          if (val =? 0)%Z then mark_cells st ixs' marks
          else
            let r := i / 9 in
            let c := i mod 9 in
            let br := r / 3 in
            let bc := c / 3 in
            let marks1 := mark_lines st i r c val (seq 0 9) marks in
            let marks2 :=
              mark_block st i val (seq (br * 3) 3) (seq (bc * 3) 3) marks1 in
            mark_cells st ixs' marks2
      | None => mark_cells st ixs' marks
      end
  end.

Definition updateConflicts (st : list Z) : gset nat := mark_cells st (seq 0 81) ∅.

(** The globals of the script.  [selected] is [None] for [-1]; the head of
    [history] is the entry pushed last; [conflicts] is the set of cells
    shown in red; [statusMsg] is the text of the status line.  The timer and
    the rest of the page are not part of the model. *)
Record session : Type := Session {
  solution : list Z;
  state : list Z;
  prefilled : list bool;
  selected : option nat;
  mistakes : nat;
  history : list (nat * Z);
  conflicts : gset nat;
  statusMsg : string
}.

(** [prefilled[idx]] as a condition: [undefined] is falsy. *)
Definition is_prefilled (s : session) (idx : nat) : bool :=
  match prefilled s !! idx with
  | Some b => b
  | None => false
  end.

(** [state.every((v, i) => v !== 0 && v === solution[i])] *)
Fixpoint every_from (sol : list Z) (i : nat) (st : list Z) : bool :=
  match st with
  | [] => true
  | v :: st' =>
      if negb (v =? 0)%Z && cell_is sol i v then every_from sol (S i) st'
      else false
  end.

(** The test [checkWin] makes. *)
Definition isSolved (s : session) : bool := every_from (solution s) 0 (state s).

Definition status (msg : string) (s : session) : session :=
  {| solution := solution s; state := state s; prefilled := prefilled s;
     selected := selected s; mistakes := mistakes s; history := history s;
     conflicts := conflicts s; statusMsg := msg |}.

Definition checkWin (s : session) : session :=
  if isSolved s then status "🎉 Puzzle complete — well done!" s else s.

(** [render()] ends with [updateConflicts()]. *)
Definition render (s : session) : session :=
  {| solution := solution s; state := state s; prefilled := prefilled s;
     selected := selected s; mistakes := mistakes s; history := history s;
     conflicts := updateConflicts (state s); statusMsg := statusMsg s |}.

(** The [click] handler of cell [i]. *)
Definition cell_click (i : nat) (s : session) : session :=
  {| solution := solution s; state := state s; prefilled := prefilled s;
     selected := Some i; mistakes := mistakes s; history := history s;
     conflicts := conflicts s; statusMsg := statusMsg s |}.

(** The [input] handler of cell [idx]; [num] is the digit left in the field
    after filtering, [0] when the field is empty. *)
Definition cell_input (idx : nat) (num : Z) (s : session) : session :=
  if is_prefilled s idx then s
  else
    let prev := state s !!! idx in
    let history' := if decide (prev ≠ num) then (idx, prev) :: history s else history s in
    let state' := <[idx:=num]> (state s) in
    let marks := updateConflicts state' in
    let wrong := negb (num =? 0)%Z && negb (cell_is (solution s) idx num) in
    checkWin
      {| solution := solution s; state := state'; prefilled := prefilled s;
         selected := selected s;
         mistakes := if wrong then mistakes s + 1 else mistakes s;
         history := history';
         conflicts := if wrong then {[idx]} ∪ marks else marks ∖ {[idx]};
         statusMsg := if wrong then "Wrong number" else "" |}.

(** The [keydown] handler of cell [idx] for Backspace and Delete. *)
Definition cell_keydown (idx : nat) (s : session) : session :=
  if is_prefilled s idx then s
  else
    let state' := <[idx:=0%Z]> (state s) in
    {| solution := solution s; state := state'; prefilled := prefilled s;
       selected := selected s; mistakes := mistakes s;
       history := (idx, state s !!! idx) :: history s;
       conflicts := updateConflicts state'; statusMsg := statusMsg s |}.

(** The [click] handler of number-pad button [n]. *)
Definition numpad_click (n : Z) (s : session) : session :=
  match selected s with
  | None => status "Select a cell first" s
  | Some idx =>
      if is_prefilled s idx then status "Cell is locked" s
      else
        let prev := state s !!! idx in
        let state' := <[idx:=n]> (state s) in
        let marks := updateConflicts state' in
        let wrong := negb (cell_is (solution s) idx n) in
        checkWin
          {| solution := solution s; state := state'; prefilled := prefilled s;
             selected := selected s;
             mistakes := if wrong then mistakes s + 1 else mistakes s;
             history := (idx, prev) :: history s;
             conflicts := if wrong then {[idx]} ∪ marks else marks ∖ {[idx]};
             statusMsg := if wrong then "Wrong number" else "" |}
  end.

(** The window [keydown] handler for a digit key.  [focused] is the test of
    its first line: whether [document.activeElement] is an INPUT when the
    key goes down, in which case the handler returns at once. *)
Definition key_digit (focused : bool) (n : Z) (s : session) : session :=
  if focused then s
  else
    match selected s with
    | None => s
    | Some idx =>
        if is_prefilled s idx then s
        else
          let state' := <[idx:=n]> (state s) in
          let marks := updateConflicts state' in
          let wrong := negb (cell_is (solution s) idx n) in
          checkWin
            {| solution := solution s; state := state'; prefilled := prefilled s;
               selected := selected s;
               mistakes := if wrong then mistakes s + 1 else mistakes s;
               history := (idx, state s !!! idx) :: history s;
               conflicts := if wrong then {[idx]} ∪ marks else marks;
               statusMsg := statusMsg s |}
    end.

(** The window [keydown] handler for an arrow key moving by [d], with the
    same test [focused] on its first line. *)
Definition key_arrow (focused : bool) (d : Z) (s : session) : session :=
  if focused then s
  else
    match selected s with
    | None => s
    | Some sel =>
        let nx := (Z.of_nat sel + d)%Z in
        if (0 <=? nx)%Z && (nx <? 81)%Z then
          {| solution := solution s; state := state s; prefilled := prefilled s;
             selected := Some (Z.to_nat nx); mistakes := mistakes s;
             history := history s; conflicts := conflicts s;
             statusMsg := statusMsg s |}
        else s
    end.

Definition undo (s : session) : session :=
  match history s with
  | [] => status "Nothing to undo" s
  | (idx, prev) :: history' =>
      status "Undo"
        (render
           {| solution := solution s; state := <[idx:=prev]> (state s);
              prefilled := prefilled s; selected := selected s;
              mistakes := mistakes s; history := history';
              conflicts := conflicts s; statusMsg := statusMsg s |})
  end.

(** The cells [giveHint] collects: empty or different from the solution. *)
Definition incorrect (s : session) : list nat :=
  filter (λ i, state s !! i = Some 0%Z ∨ state s !! i ≠ solution s !! i) (seq 0 81).

(** [giveHint()]; [k] is the random draw picking the cell. *)
Definition giveHint (k : nat) (s : session) : session :=
  match incorrect s with
  | [] => status "No hints — puzzle seems complete" s
  | i0 :: _ =>
      let idx := nth (k mod length (incorrect s)) (incorrect s) i0 in
      status "Hint revealed"
        (checkWin
           (render
              {| solution := solution s;
                 state := <[idx:=solution s !!! idx]> (state s);
                 prefilled := <[idx:=false]> (prefilled s);
                 selected := selected s; mistakes := mistakes s;
                 history := (idx, state s !!! idx) :: history s;
                 conflicts := conflicts s; statusMsg := statusMsg s |}))
  end.

Definition revealSolution (s : session) : session :=
  status "Solution revealed"
    (render
       {| solution := solution s; state := solution s; prefilled := prefilled s;
          selected := selected s; mistakes := mistakes s; history := history s;
          conflicts := conflicts s; statusMsg := statusMsg s |}).

(** [newPuzzle()]; [removals] is the number read from the difficulty
    selector.  [solution], [state] and [prefilled] are fresh arrays
    ([slice], [map]) that nothing else refers to, so the session holds their
    contents. *)
Definition newPuzzle (removals : Z) (r : rand) (s : session) : outcome session :=
  match generateSolved r [] with
  | Done (solved, r1, σ1) =>
      let solution' := σ1 !!! solved in
      match makePuzzle solved removals r1 σ1 with
      | Done (puzzle, _, σ2) =>
          let puzzle' := σ2 !!! puzzle in
          Done
            (status "New puzzle — good luck!"
               (render
                  {| solution := solution'; state := puzzle';
                     prefilled := (λ v, negb (v =? 0)%Z) <$> puzzle';
                     selected := selected s; mistakes := 0; history := [];
                     conflicts := conflicts s; statusMsg := "Generating puzzle..." |}))
      | OutOfFuel => OutOfFuel
      end
  | OutOfFuel => OutOfFuel
  end.

(** The globals as the script initialises them, before its first
    [newPuzzle()]. *)
Definition initial : session :=
  {| solution := replicate 81 0%Z; state := replicate 81 0%Z;
     prefilled := replicate 81 false; selected := None; mistakes := 0;
     history := []; conflicts := ∅; statusMsg := "" |}.

(** What the page can do to a session.  A key that reaches the window
    carries the focus test of the handler: which element holds the focus is
    the browser's state, not the script's. *)
Inductive action : Type :=
  | Click (i : nat)
  | Input (idx : nat) (num : Z)
  | Backspace (idx : nat)
  | Numpad (n : Z)
  | KeyDigit (focused : bool) (n : Z)
  | KeyArrow (focused : bool) (d : Z)
  | Undo
  | Hint (k : nat)
  | Reveal
  | NewGame (removals : Z) (r : rand).

(** The page has 81 cells, a field yields the number left after filtering
    ([0] when nothing is left), the pad and the keys carry 1 to 9, the
    arrows move by one cell or one row. *)
Definition action_ok (a : action) : Prop :=
  match a with
  | Click i => i < 81
  | Input idx num => idx < 81 ∧ (0 ≤ num)%Z
  | Backspace idx => idx < 81
  | Numpad n | KeyDigit _ n => (1 ≤ n ≤ 9)%Z
  | KeyArrow _ d => d ∈ [-1; 1; -9; 9]%Z
  | Undo | Hint _ | Reveal | NewGame _ _ => True
  end.

Definition step (a : action) (s : session) : outcome session :=
  match a with
  | Click i => Done (cell_click i s)
  | Input idx num => Done (cell_input idx num s)
  | Backspace idx => Done (cell_keydown idx s)
  | Numpad n => Done (numpad_click n s)
  | KeyDigit focused n => Done (key_digit focused n s)
  | KeyArrow focused d => Done (key_arrow focused d s)
  | Undo => Done (undo s)
  | Hint k => Done (giveHint k s)
  | Reveal => Done (revealSolution s)
  | NewGame removals r => newPuzzle removals r s
  end.

(** The sessions a player can reach: the script calls [newPuzzle()] once
    when it loads, then handlers run one after the other. *)
Inductive reachable : session → Prop :=
  | reach_load removals r s :
      newPuzzle removals r initial = Done s → reachable s
  | reach_step a s s' :
      reachable s → action_ok a → step a s = Done s' → reachable s'.

(** A source of random numbers for the examples. *)
Definition r0 : rand := λ k, k * 7 + 3.

(** ** Properties of grids used in the statements *)

(** No cell of the board is empty. *)
Definition full (g : list Z) : Prop := ∀ i, i < 81 → g !! i ≠ Some 0%Z.

(** Cells [i] and [j] are two different cells of one row, column or block
    holding the same number. *)
Definition duplicate (g : list Z) (i j : nat) : Prop :=
  i < 81 ∧ j < 81 ∧ i ≠ j ∧ same_unit i j ∧
  ∃ v, v ≠ 0%Z ∧ g !! i = Some v ∧ g !! j = Some v.

Definition no_duplicates (g : list Z) : Prop := ∀ i j, ¬ duplicate g i j.

(** [a'] is [a] with some empty cells given a digit and nothing else changed. *)
Definition fills (a a' : list Z) : Prop :=
  length a' = length a ∧
  ∀ i, a' !! i = a !! i ∨
       (a !! i = Some 0%Z ∧ ∃ v, a' !! i = Some v ∧ (1 ≤ v ≤ 9)%Z).

Definition count_zeros (g : list Z) : nat := length (filter (λ v, v = 0%Z) g).

(** The number of empty cells the search still has to fill. *)
Definition empties (g : list Z) : nat := count_zeros (take 81 g).

(** What a call of the search guarantees: on success the array is a full
    completion without new duplicates, on failure the array is as it was. *)
Definition search_post (g : list Z) (res : outcome (bool * list Z)) : Prop :=
  match res with
  | Done (true, g') =>
      fills g g' ∧ full g' ∧ ∀ i j, duplicate g' i j → duplicate g i j
  | Done (false, g') => g' = g
  | OutOfFuel => True
  end.

(** Every number of [a] is still where it was in [a']. *)
Definition preserves (a a' : list Z) : Prop :=
  ∀ i v, a !! i = Some v → v ≠ 0%Z → a' !! i = Some v.

(** No other cell of the units of [pos] holds [val]. *)
Definition free_elsewhere (g : list Z) (pos : nat) (val : Z) : bool :=
  forallb (λ k, (k =? pos) || negb (same_unitb pos k) || negb (cell_is g k val))
    (seq 0 81).

(** The reference solution with its first cell overwritten by a 3. *)
Definition spoiled : list Z := <[0:=3%Z]> reference.

(** The search succeeds on the board [a]. *)
Definition solvable (a : list Z) : Prop := ∃ a', backtrack 81 a = Done (true, a').

(** [p] is [a] with some cells set to [0] and nothing else changed. *)
Definition erases (a p : list Z) : Prop :=
  length p = length a ∧ ∀ i, p !! i = a !! i ∨ p !! i = Some 0%Z.

(** The [Set]s of one family hold, for each unit, the numbers placed in the
    cells before [pos]; [key] maps a cell to its unit. *)
Definition tracks (sets : list (gset Z)) (key : nat → nat) (pos : nat)
    (g : list Z) : Prop :=
  length sets = 9 ∧
  ∀ u n, u < 9 → n ∈ sets !!! u ↔ ∃ i, i < pos ∧ key i = u ∧ g !! i = Some n.

(** The state of the generator on entering [place(pos)]. *)
Definition gen_inv (pos : nat) (st : gen_state) : Prop :=
  length (grid st) = 81 ∧
  (∀ i, i < pos → ∃ v, grid st !! i = Some v ∧ (1 ≤ v ≤ 9)%Z) ∧
  (∀ i, pos ≤ i → i < 81 → grid st !! i = Some 0%Z) ∧
  no_duplicates (grid st) ∧
  tracks (rows st) row pos (grid st) ∧
  tracks (cols st) col pos (grid st) ∧
  tracks (blocks st) block pos (grid st).

(** [sol] is a solved board that agrees with [g] on the cells before [pos]. *)
Definition completion (pos : nat) (g sol : list Z) : Prop :=
  length sol = 81 ∧
  (∀ i, i < 81 → ∃ v, sol !! i = Some v ∧ (1 ≤ v ≤ 9)%Z) ∧
  no_duplicates sol ∧
  ∀ i, i < pos → sol !! i = g !! i.

(** What [place(pos)] guarantees: on [true] the board is finished, on
    [false] everything is as before and the board had no completion. *)
Definition place_post (pos : nat) (st : gen_state)
    (res : outcome (bool * gen_state * rand)) : Prop :=
  match res with
  | Done (true, st', _) => gen_inv 81 st'
  | Done (false, st', _) => st' = st ∧ ∀ sol, ¬ completion pos (grid st) sol
  | OutOfFuel => False
  end.

(** The cells of row [u], of column [u] and of block [u]. *)
Definition row_cells (u : nat) : list nat := (λ i, u * 9 + i) <$> seq 0 9.
Definition col_cells (u : nat) : list nat := (λ i, i * 9 + u) <$> seq 0 9.
Definition block_cells (u : nat) : list nat :=
  (λ d, (u / 3 * 3 + d / 3) * 9 + (u mod 3 * 3 + d mod 3)) <$> seq 0 9.

Definition values (g : list Z) (cells : list nat) : list Z :=
  (λ k, g !!! k) <$> cells.

(** A solved board: 81 cells, every row, column and block a permutation of
    1 to 9. *)
Definition solved_grid (g : list Z) : Prop :=
  length g = 81 ∧
  ∀ u, u < 9 →
    values g (row_cells u) ≡ₚ digits ∧
    values g (col_cells u) ≡ₚ digits ∧
    values g (block_cells u) ≡ₚ digits.

(** A board checked cell by cell: 81 digits from 1 to 9, no two equal in a
    row, a column or a block. *)
Definition complete_board (a : list Z) : Prop :=
  length a = 81 ∧
  (∀ i, i < 81 → ∃ v, a !! i = Some v ∧ (1 ≤ v ≤ 9)%Z) ∧
  no_duplicates a.

Definition complete_boardb (a : list Z) : bool :=
  (length a =? 81) &&
  forallb (λ v, (1 <=? v)%Z && (v <=? 9)%Z) a &&
  forallb (λ i, forallb (λ j,
      (i =? j) || negb (same_unitb i j) || negb (bool_decide (a !! i = a !! j)))
    (seq 0 81)) (seq 0 81).

(** ** Properties of sessions used in the statements *)

Definition wf_session (s : session) : Prop :=
  length (solution s) = 81 ∧ length (state s) = 81 ∧ length (prefilled s) = 81.

(** What holds of the globals between two handlers: the three boards have 81
    cells, the solution is a complete board, a locked cell shows its
    solution, no entry of the history points at a locked cell, and the
    selection is a cell of the board. *)
Definition session_inv (s : session) : Prop :=
  wf_session s ∧
  complete_board (solution s) ∧
  (∀ i, is_prefilled s i = true → state s !! i = solution s !! i) ∧
  (∀ e, e ∈ history s → is_prefilled s e.1 = false ∧ e.1 < 81) ∧
  (∀ i, selected s = Some i → i < 81).

(** A session of a game with one cell removed, and the same session after
    the player typed a 5 into that cell. *)
Definition demo := Eval vm_compute in
  match newPuzzle 1 r0 initial with
  | Done s => s
  | OutOfFuel => initial
  end.

Definition demo_typed : session := cell_input 23 5 demo.

(** Globals that no play produces, with a hole under a lock: the reference
    solution, its first cell emptied on the board, and every cell locked. *)
Definition locked_gap : session :=
  {| solution := reference; state := <[0:=0%Z]> reference;
     prefilled := replicate 81 true; selected := None; mistakes := 0;
     history := []; conflicts := ∅; statusMsg := "" |}.

(** ** Further properties of the solver and the carver *)

(** [sol] is a finished board that keeps every number of [a]. *)
Definition completes (a sol : list Z) : Prop :=
  complete_board sol ∧ preserves a sol.

(** Reading the boards cell by cell, [a] and [b] first differ at a cell
    where [a] holds the smaller number. *)
Definition lex_before (a b : list Z) : Prop :=
  ∃ i x y, i < 81 ∧ (∀ j, j < i → a !! j = b !! j) ∧
    a !! i = Some x ∧ b !! i = Some y ∧ (x < y)%Z.

(** [a] with the cells listed in [ixs] set to [0], one after the other. *)
Definition zero_cells (ixs : list nat) (a : list Z) : list Z :=
  foldl (λ p i, <[i:=0%Z]> p) a ixs.

(** The random source that yields [j] first and then goes on as [r]. *)
Definition cons_rand (j : nat) (r : rand) : rand :=
  λ k, match k with 0 => j | S k' => r k' end.

(** ** Further handlers and notions of play *)

(** The [click] handler of the Check button; [bad] is the list of the cells
    carrying the class [conflict] after [updateConflicts()]. *)
Definition check_click (s : session) : session :=
  let marks := updateConflicts (state s) in
  let bad := filter (λ i, i ∈ marks) (seq 0 81) in
  {| solution := solution s; state := state s; prefilled := prefilled s;
     selected := selected s; mistakes := mistakes s; history := history s;
     conflicts := marks;
     statusMsg := match bad with
                  | [] => "No conflicts found."
                  | _ :: _ => "There are conflicts — red cells are wrong."
                  end |}.

(** Handlers run one after the other. *)
Fixpoint run (acts : list action) (s : session) : outcome session :=
  match acts with
  | [] => Done s
  | a :: acts' =>
      match step a s with
      | Done s' => run acts' s'
      | OutOfFuel => OutOfFuel
      end
  end.

(** Every action but a new game; every action but a new game and the
    reveal of the solution. *)
Definition same_game (a : action) : Prop :=
  match a with
  | NewGame _ _ => False
  | _ => True
  end.

Definition is_play (a : action) : Prop :=
  match a with
  | NewGame _ _ | Reveal => False
  | _ => True
  end.

(** The board after taking back every entry of the history [h], the last
    pushed first. *)
Definition unwind (h : list (nat * Z)) (st : list Z) : list Z :=
  foldl (λ st e, <[e.1:=e.2]> st) st h.

(** [undo()] pressed once for every entry of the history. *)
Definition undo_all (s : session) : session :=
  Nat.iter (length (history s)) undo s.

(** [giveHint()] called once for each draw of [ks]. *)
Definition hints (ks : list nat) (s : session) : session :=
  foldl (λ s k, giveHint k s) s ks.

(** * Proofs *)

(** ** Arithmetic of rows, columns and blocks *)

Ltac Zify.zify_post_hook ::= Z.div_mod_to_equations.

Lemma same_unit_cases (pos k : nat) :
  pos < 81 → k < 81 →
  same_unit pos k ↔
    k / 9 = pos / 9 ∨ k mod 9 = pos mod 9 ∨
    (k / 9 / 3 = pos / 9 / 3 ∧ k mod 9 / 3 = pos mod 9 / 3).
Proof. unfold same_unit, block, blockIndex, row, col. lia. Qed.

Lemma same_unit_sym (i j : nat) : same_unit i j → same_unit j i.
Proof. unfold same_unit. intuition auto. Qed.

Lemma same_unitb_spec (i j : nat) : same_unitb i j = true ↔ same_unit i j.
Proof.
  unfold same_unitb, same_unit.
  rewrite !orb_true_iff, !Nat.eqb_eq. tauto.
Qed.

(** ** The validator *)

Lemma cell_is_spec (g : list Z) (k : nat) (val : Z) :
  cell_is g k val = true ↔ g !! k = Some val.
Proof. unfold cell_is. apply bool_decide_eq_true. Qed.

Lemma cell_is_false (g : list Z) (k : nat) (val : Z) :
  cell_is g k val = false ↔ g !! k ≠ Some val.
Proof. unfold cell_is. apply bool_decide_eq_false. Qed.

Lemma valid_lines_false (g : list Z) (r c : nat) (val : Z) (ixs : list nat) :
  valid_lines g r c val ixs = false ↔
  ∃ i, i ∈ ixs ∧ (g !! (r * 9 + i) = Some val ∨ g !! (i * 9 + c) = Some val).
Proof.
  induction ixs as [|i ixs IH]; simpl.
  - split; [done | intros (i & Hi & _); by apply elem_of_nil in Hi].
  - destruct (cell_is g (r * 9 + i) val) eqn:E1.
    { apply cell_is_spec in E1. split; [|done].
      intros _. exists i. split; [left | by left]. }
    destruct (cell_is g (i * 9 + c) val) eqn:E2.
    { apply cell_is_spec in E2. split; [|done].
      intros _. exists i. split; [left | by right]. }
    apply cell_is_false in E1, E2. rewrite IH. split.
    + intros (j & Hj & H). exists j. split; [by right | done].
    + intros (j & Hj & H). apply elem_of_cons in Hj as [->|Hj]; [tauto|eauto].
Qed.

Lemma valid_block_row_false (g : list Z) (rr : nat) (val : Z) (ccs : list nat) :
  valid_block_row g rr val ccs = false ↔
  ∃ cc, cc ∈ ccs ∧ g !! (rr * 9 + cc) = Some val.
Proof.
  induction ccs as [|cc ccs IH]; simpl.
  - split; [done | intros (i & Hi & _); by apply elem_of_nil in Hi].
  - destruct (cell_is g (rr * 9 + cc) val) eqn:E.
    { apply cell_is_spec in E. split; [|done]. intros _. exists cc. split; [left | done]. }
    apply cell_is_false in E. rewrite IH. split.
    + intros (j & Hj & H). exists j. split; [by right | done].
    + intros (j & Hj & H). apply elem_of_cons in Hj as [->|Hj]; [done|eauto].
Qed.

Lemma valid_block_false (g : list Z) (val : Z) (rrs ccs : list nat) :
  valid_block g val rrs ccs = false ↔
  ∃ rr cc, rr ∈ rrs ∧ cc ∈ ccs ∧ g !! (rr * 9 + cc) = Some val.
Proof.
  induction rrs as [|rr rrs IH]; simpl.
  - split; [done | intros (i & ? & Hi & _); by apply elem_of_nil in Hi].
  - destruct (valid_block_row g rr val ccs) eqn:E.
    + rewrite IH. split.
      * intros (r' & cc & Hr & Hc & H). exists r', cc. split; [by right | done].
      * intros (r' & cc & Hr & Hc & H).
        apply elem_of_cons in Hr as [->|Hr]; [|eauto 6].
        assert (valid_block_row g rr val ccs = false) as E'
          by (apply valid_block_row_false; eauto).
        congruence.
    + apply valid_block_row_false in E as (cc & Hc & H).
      split; [|done]. intros _. exists rr, cc. split; [left | done].
Qed.

(** [valid] looks at every cell of the three units of [pos], [pos] included. *)
Lemma valid_false (g : list Z) (pos : nat) (val : Z) :
  pos < 81 →
  valid g pos val = false ↔
  ∃ k, k < 81 ∧ same_unit pos k ∧ g !! k = Some val.
Proof.
  intros Hpos. unfold valid.
  destruct (valid_lines _ _ _ _ _) eqn:E.
  - rewrite valid_block_false. split.
    + intros (rr & cc & Hr & Hc & H).
      apply elem_of_seq in Hr, Hc.
      exists (rr * 9 + cc). split; [lia|]. split; [|done].
      apply same_unit_cases; lia.
    + intros (k & Hk & Hu & H).
      apply same_unit_cases in Hu; [|done..].
      destruct Hu as [Hu|[Hu|Hu]].
      * assert (valid_lines g (pos / 9) (pos mod 9) val (seq 0 9) = false); [|congruence].
        apply valid_lines_false. exists (k mod 9). split; [apply elem_of_seq; lia|].
        left. replace (pos / 9 * 9 + k mod 9) with k by lia. done.
      * assert (valid_lines g (pos / 9) (pos mod 9) val (seq 0 9) = false); [|congruence].
        apply valid_lines_false. exists (k / 9). split; [apply elem_of_seq; lia|].
        right. replace (k / 9 * 9 + pos mod 9) with k by lia. done.
      * exists (k / 9), (k mod 9). rewrite !elem_of_seq.
        replace (k / 9 * 9 + k mod 9) with k by lia. split_and!; [lia..|done].
  - split; [|done]. intros _.
    apply valid_lines_false in E as (i & Hi & H). apply elem_of_seq in Hi.
    destruct H as [H|H]; eexists; (split; [|split; [|exact H]]);
      [lia | apply same_unit_cases; lia | lia | apply same_unit_cases; lia].
Qed.

(** ** The search *)

Lemma findEmpty_from_Some (g : list Z) (ixs : list nat) (pos : nat) :
  findEmpty_from g ixs = Some pos → pos ∈ ixs ∧ g !! pos = Some 0%Z.
Proof.
  induction ixs as [|i ixs IH]; simpl; [done|].
  destruct (cell_is g i 0) eqn:E.
  - intros [= <-]. apply cell_is_spec in E. split; [left | done].
  - intros [H1 H2]%IH. split; [by right | done].
Qed.

Lemma findEmpty_from_None (g : list Z) (ixs : list nat) :
  findEmpty_from g ixs = None → ∀ i, i ∈ ixs → g !! i ≠ Some 0%Z.
Proof.
  induction ixs as [|i ixs IH]; simpl; [by intros _ j ?%elem_of_nil|].
  destruct (cell_is g i 0) eqn:E; [done|].
  apply cell_is_false in E.
  intros H j [->|Hj]%elem_of_cons; auto.
Qed.

Lemma findEmpty_Some (g : list Z) (pos : nat) :
  findEmpty g = Some pos → pos < 81 ∧ g !! pos = Some 0%Z.
Proof.
  intros [H1 H2]%findEmpty_from_Some. apply elem_of_seq in H1. split; [lia | done].
Qed.

Lemma findEmpty_None (g : list Z) : findEmpty g = None → full g.
Proof.
  intros H i Hi. apply (findEmpty_from_None _ _ H). apply elem_of_seq. lia.
Qed.

Lemma full_findEmpty (g : list Z) : full g → findEmpty g = None.
Proof.
  intros Hf. destruct (findEmpty g) as [pos|] eqn:E; [|done].
  apply findEmpty_Some in E as [H1 H2]. by destruct (Hf pos H1).
Qed.

Lemma digits_range (n : Z) : n ∈ digits ↔ (1 ≤ n ≤ 9)%Z.
Proof.
  unfold digits. rewrite !elem_of_cons, elem_of_nil. lia.
Qed.

Lemma fills_refl (a : list Z) : fills a a.
Proof. split; [done | by left]. Qed.

Lemma fills_trans (a b c : list Z) : fills a b → fills b c → fills a c.
Proof.
  intros [L1 H1] [L2 H2]. split; [congruence|].
  intros i. destruct (H2 i) as [E2|(E2 & v & E2' & Hv)], (H1 i) as [E1|(E1 & w & E1' & Hw)].
  - left. congruence.
  - right. split; [done|]. exists w. split; [congruence | done].
  - right. split; [congruence|]. eauto.
  - rewrite E1' in E2. injection E2 as ->. lia.
Qed.

Lemma fills_insert (g : list Z) (pos : nat) (n : Z) :
  g !! pos = Some 0%Z → (1 ≤ n ≤ 9)%Z → fills g (<[pos:=n]> g).
Proof.
  intros Hpos Hn. split; [apply length_insert|].
  intros i. destruct (decide (i = pos)) as [->|Hne].
  - right. split; [done|]. exists n. split; [|done].
    apply list_lookup_insert_eq. by eapply lookup_lt_Some.
  - left. by apply list_lookup_insert_ne.
Qed.

(** A candidate that passed [valid] brings no duplicate with it. *)
Lemma duplicate_insert (g : list Z) (pos : nat) (n : Z) (i j : nat) :
  pos < 81 → g !! pos = Some 0%Z → valid g pos n = true →
  duplicate (<[pos:=n]> g) i j → duplicate g i j.
Proof.
  intros Hpos H0 Hv (Hi & Hj & Hne & Hu & v & Hv0 & Ei & Ej).
  assert (∀ k, k < 81 → same_unit pos k → g !! k ≠ Some n) as Hfree.
  { intros k Hk Hku Hkn.
    assert (valid g pos n = false) by (apply valid_false; eauto). congruence. }
  assert (pos < length g) as Hlen by (by eapply lookup_lt_Some).
  destruct (decide (i = pos)) as [->|Hi'], (decide (j = pos)) as [->|Hj'].
  - done.
  - rewrite list_lookup_insert_eq in Ei by done. injection Ei as <-.
    rewrite list_lookup_insert_ne in Ej by done.
    by destruct (Hfree j Hj Hu).
  - rewrite list_lookup_insert_eq in Ej by done. injection Ej as <-.
    rewrite list_lookup_insert_ne in Ei by done.
    destruct (Hfree i Hi); [by apply same_unit_sym | done].
  - rewrite list_lookup_insert_ne in Ei, Ej by done.
    split_and!; [done..|]. eauto.
Qed.

Lemma backtrack_loop_post (rec : list Z → outcome (bool * list Z))
    (pos : nat) (ns : list Z) (g : list Z) :
  (∀ a, search_post a (rec a)) →
  pos < 81 → g !! pos = Some 0%Z → (∀ n, n ∈ ns → (1 ≤ n ≤ 9)%Z) →
  search_post g (backtrack_loop rec pos ns g).
Proof.
  intros Hrec Hpos H0. induction ns as [|n ns IH]; intros Hns; simpl; [done|].
  assert (∀ n, n ∈ ns → (1 ≤ n ≤ 9)%Z) as Hns' by (intros m Hm; apply Hns; by right).
  destruct (valid g pos n) eqn:Hv; [|by apply IH].
  specialize (Hrec (<[pos:=n]> g)).
  destruct (rec (<[pos:=n]> g)) as [[[] g']|]; simpl in Hrec |- *; [| |done].
  - destruct Hrec as (Hf & Hfull & Hd). split_and!; [|done|].
    + eapply fills_trans; [|exact Hf]. apply fills_insert; [done|]. apply Hns. left.
    + intros i j Hij. eapply duplicate_insert; eauto.
  - subst g'. rewrite list_insert_insert_eq.
    rewrite list_insert_id by done. by apply IH.
Qed.

Lemma backtrack_eq (fuel : nat) (g : list Z) :
  backtrack fuel g =
  match findEmpty g with
  | None => Done (true, g)
  | Some pos =>
      match fuel with
      | 0 => OutOfFuel
      | S fuel' => backtrack_loop (backtrack fuel') pos digits g
      end
  end.
Proof. by destruct fuel. Qed.

Lemma backtrack_post (fuel : nat) (g : list Z) : search_post g (backtrack fuel g).
Proof.
  revert g. induction fuel as [|fuel IH]; intros g; rewrite backtrack_eq.
  - destruct (findEmpty g) eqn:E; [done|]. simpl.
    split_and!; [apply fills_refl | by apply findEmpty_None | done].
  - destruct (findEmpty g) as [pos|] eqn:E.
    + apply findEmpty_Some in E as [H1 H2].
      apply backtrack_loop_post; [done..|]. intros n. apply digits_range.
    + simpl. split_and!; [apply fills_refl | by apply findEmpty_None | done].
Qed.

Lemma count_zeros_insert (l : list Z) (i : nat) (n : Z) :
  l !! i = Some 0%Z → n ≠ 0%Z →
  S (count_zeros (<[i:=n]> l)) = count_zeros l.
Proof.
  unfold count_zeros. revert i. induction l as [|x l IH]; intros i; [done|].
  destruct i as [|i]; cbn [insert list_insert lookup list_lookup].
  - intros [= ->] Hn. rewrite (filter_cons_True _ 0%Z) by done.
    by rewrite (filter_cons_False _ n) by done.
  - intros Hi Hn. destruct (decide (x = 0%Z)).
    + rewrite !filter_cons_True by done. simpl. f_equal. by apply IH.
    + rewrite !filter_cons_False by done. by apply IH.
Qed.

Lemma count_zeros_insert_le (l : list Z) (i : nat) (n : Z) :
  count_zeros (<[i:=n]> l) ≤ S (count_zeros l).
Proof.
  unfold count_zeros. revert i. induction l as [|x l IH]; intros i; [simpl; lia|].
  destruct i as [|i]; cbn [insert list_insert].
  - rewrite !filter_cons. repeat case_decide; cbn [length]; lia.
  - specialize (IH i). rewrite !filter_cons.
    repeat case_decide; cbn [length];
      first [exact IH | apply (proj1 (Nat.succ_le_mono _ _)); exact IH].
Qed.

Lemma count_zeros_length (l : list Z) : count_zeros l ≤ length l.
Proof. apply length_filter. Qed.

Lemma empties_insert (g : list Z) (pos : nat) (n : Z) :
  pos < 81 → g !! pos = Some 0%Z → n ≠ 0%Z →
  S (empties (<[pos:=n]> g)) = empties g.
Proof.
  intros Hpos H0 Hn. unfold empties.
  rewrite take_insert_lt by done.
  apply count_zeros_insert; [|done]. by rewrite lookup_take_lt.
Qed.

Lemma empties_bound (g : list Z) : empties g ≤ 81.
Proof.
  unfold empties. etrans; [apply count_zeros_length|]. rewrite length_take. lia.
Qed.

Lemma backtrack_loop_fuel (rec : list Z → outcome (bool * list Z))
    (pos : nat) (ns : list Z) (g : list Z) :
  (∀ a, search_post a (rec a)) →
  (∀ n, n ∈ ns → rec (<[pos:=n]> g) ≠ OutOfFuel) →
  g !! pos = Some 0%Z →
  backtrack_loop rec pos ns g ≠ OutOfFuel.
Proof.
  intros Hpost Hrec H0. induction ns as [|n ns IH]; simpl; [done|].
  assert (backtrack_loop rec pos ns g ≠ OutOfFuel) as IH'.
  { apply IH. intros m Hm. apply Hrec. by right. }
  destruct (valid g pos n); [|done].
  specialize (Hpost (<[pos:=n]> g)).
  assert (rec (<[pos:=n]> g) ≠ OutOfFuel) as Hn by (apply Hrec; left).
  destruct (rec (<[pos:=n]> g)) as [[[] g']|]; simpl in Hpost; [done| |done].
  subst g'. rewrite list_insert_insert_eq. by rewrite list_insert_id.
Qed.

(** One unit of fuel per empty cell is enough. *)
Lemma backtrack_fuel (fuel : nat) (g : list Z) :
  empties g ≤ fuel → backtrack fuel g ≠ OutOfFuel.
Proof.
  revert g. induction fuel as [|fuel IH]; intros g Hf; rewrite backtrack_eq.
  - destruct (findEmpty g) as [pos|] eqn:E; [|done].
    apply findEmpty_Some in E as [H1 H2].
    pose proof (empties_insert g pos 1 H1 H2). lia.
  - destruct (findEmpty g) as [pos|] eqn:E; [|done].
    apply findEmpty_Some in E as [H1 H2].
    apply backtrack_loop_fuel; [apply backtrack_post| |done].
    intros n Hn%digits_range. apply IH.
    pose proof (empties_insert g pos n H1 H2). lia.
Qed.

Lemma backtrack_total (g : list Z) :
  ∃ b g', backtrack 81 g = Done (b, g').
Proof.
  pose proof (backtrack_fuel 81 g (empties_bound g)) as H.
  destruct (backtrack 81 g) as [[b g']|]; [eauto | done].
Qed.

(** ** [solve] on the store *)

Lemma store_append_lookup (σ : store) (a : list Z) :
  (σ ++ [a]) !!! length σ = a.
Proof. apply list_lookup_total_correct. by apply list_lookup_middle. Qed.

Lemma store_append_insert (σ : store) (a a' : list Z) :
  <[length σ:=a']> (σ ++ [a]) = σ ++ [a'].
Proof. rewrite insert_app_r_alt by done. by rewrite Nat.sub_diag. Qed.

(** [solve] allocates one array, the copy it works on, and touches nothing
    else. *)
Lemma solve_eq (σ : store) (grid : loc) (a : list Z) :
  σ !! grid = Some a →
  ∃ b a', backtrack 81 a = Done (b, a') ∧
    solve grid σ = Done (if b : bool then Some (length σ) else None, σ ++ [a']).
Proof.
  intros Hg. destruct (backtrack_total a) as (b & a' & Hb).
  exists b, a'. split; [done|]. unfold solve, slice.
  rewrite (list_lookup_total_correct _ _ _ Hg).
  by rewrite store_append_lookup, Hb, store_append_insert.
Qed.

Lemma fills_preserves (a a' : list Z) : fills a a' → preserves a a'.
Proof.
  intros [_ H] i v Hi Hv. destruct (H i) as [E|(E & _)]; congruence.
Qed.

Lemma free_elsewhere_spec (g : list Z) (pos : nat) (val : Z) :
  free_elsewhere g pos val = true →
  ∀ k, k < 81 → k ≠ pos → same_unit pos k → g !! k ≠ Some val.
Proof.
  unfold free_elsewhere. rewrite forallb_forall.
  intros H k Hk Hne Hu Hv.
  specialize (H k). rewrite <- list_elem_of_In, elem_of_seq in H.
  specialize (H ltac:(lia)).
  apply same_unitb_spec in Hu. apply cell_is_spec in Hv.
  apply Nat.eqb_neq in Hne. rewrite Hne, Hu, Hv in H. done.
Qed.

(** ** What [valid] answers *)

(** C4 (as amended): [valid(pos, val)] is false exactly when [val] stands
    in some cell of the row, the column or the block of [pos], the cell
    [pos] included; where [pos] does not hold [val] this is the same as
    [val] standing in another cell of these units, and where it does the
    answer is false.  On the reference solution every cell's own value is
    therefore rejected, while the conflict detector marks no cell. *)
Theorem valid_checks_whole_units (g : list Z) (pos : nat) (val : Z) :
  pos < 81 →
  (valid g pos val = false ↔
     ∃ k, k < 81 ∧ same_unit pos k ∧ g !! k = Some val) ∧
  (g !! pos ≠ Some val →
     (valid g pos val = false ↔
        ∃ k, k < 81 ∧ k ≠ pos ∧ same_unit pos k ∧ g !! k = Some val)) ∧
  (g !! pos = Some val → valid g pos val = false) ∧
  valid reference pos (reference !!! pos) = false ∧
  updateConflicts reference = ∅.
Proof.
  intros Hpos.
  assert (∀ g val, g !! pos = Some val → valid g pos val = false) as Hself.
  { intros g' val' H. apply valid_false; [done|]. exists pos.
    split_and!; [done | by left | done]. }
  split_and!.
  - by apply valid_false.
  - intros Hne. rewrite valid_false by done. split.
    + intros (k & Hk & Hu & Hv). exists k.
      split_and!; [done | congruence | done | done].
    + intros (k & Hk & _ & Hu & Hv). eauto.
  - apply Hself.
  - apply Hself. apply list_lookup_lookup_total_lt. simpl. lia.
  - by vm_compute.
Qed.

Lemma valid_checks_whole_units_witness :
  (valid reference 0 5 = false ↔
     ∃ k, k < 81 ∧ same_unit 0 k ∧ reference !! k = Some 5%Z) ∧
  (reference !! 0 ≠ Some 5%Z →
     (valid reference 0 5 = false ↔
        ∃ k, k < 81 ∧ k ≠ 0 ∧ same_unit 0 k ∧ reference !! k = Some 5%Z)) ∧
  (reference !! 0 = Some 5%Z → valid reference 0 5 = false) ∧
  valid reference 0 (reference !!! 0) = false ∧
  updateConflicts reference = ∅.
Proof. apply (valid_checks_whole_units reference 0 5). lia. Defined.

(** C4 as stated fails: on the reference solution the validator rejects the
    5 of the first cell although no other cell of its row, column or block
    holds a 5. *)
Lemma valid_rejects_own_value :
  valid reference 0 5 = false ∧
  ∀ k, k < 81 → k ≠ 0 → same_unit 0 k → reference !! k ≠ Some 5%Z.
Proof.
  split; [reflexivity|]. apply free_elsewhere_spec. reflexivity.
Qed.

(** ** The carver *)

Lemma write_lookup (σ : store) (a : loc) (i : nat) (v : Z) (p : list Z) :
  σ !! a = Some p → write a i v σ !! a = Some (<[i:=v]> p).
Proof. intros H. unfold write. by rewrite list_lookup_alter_eq, H. Qed.

Lemma write_lookup_ne (σ : store) (a l : loc) (i : nat) (v : Z) :
  l ≠ a → write a i v σ !! l = σ !! l.
Proof. intros H. unfold write. by rewrite list_lookup_alter_ne. Qed.

Lemma length_write (σ : store) (a : loc) (i : nat) (v : Z) :
  length (write a i v σ) = length σ.
Proof. apply length_alter. Qed.

(** Writing back the value a cell held undoes a write to that cell:
    [backup = a[i]; a[i] = v; ...; a[i] = backup]. *)
Lemma restore_write (l : list Z) (i : nat) (v : Z) :
  <[i:=l !!! i]> (<[i:=v]> l) = l.
Proof.
  rewrite list_insert_insert_eq.
  destruct (decide (i < length l)) as [Hlt|Hge].
  - by apply list_insert_id, list_lookup_lookup_total_lt.
  - apply list_insert_ge. lia.
Qed.

Lemma erases_refl (a : list Z) : erases a a.
Proof. split; [done | by left]. Qed.

Lemma erases_trans (a b c : list Z) : erases a b → erases b c → erases a c.
Proof.
  intros [L1 H1] [L2 H2]. split; [congruence|].
  intros i. destruct (H2 i) as [E2|E2]; [|by right].
  destruct (H1 i) as [E1|E1]; [left | right]; congruence.
Qed.

Lemma erases_insert (p : list Z) (idx : nat) : erases p (<[idx:=0%Z]> p).
Proof.
  split; [apply length_insert|]. intros i.
  destruct (decide (i = idx)) as [->|Hne]; [|left; by apply list_lookup_insert_ne].
  destruct (decide (idx < length p)) as [Hlt|Hge].
  - right. by apply list_lookup_insert_eq.
  - left. rewrite list_insert_ge; [done | lia].
Qed.

Lemma full_solvable (a : list Z) : full a → solvable a.
Proof.
  intros Hf. exists a. rewrite backtrack_eq. by rewrite full_findEmpty.
Qed.

Lemma solvable_solve (σ : store) (grid : loc) (a : list Z) :
  σ !! grid = Some a → solvable a →
  ∃ g σ', solve grid σ = Done (Some g, σ').
Proof.
  intros Hg [a1 Ha1]. destruct (solve_eq σ grid a Hg) as (b & a' & Hb & Hs).
  rewrite Ha1 in Hb. injection Hb as <- <-. eauto.
Qed.

Lemma full_count_zeros (a : list Z) :
  length a = 81 → full a → count_zeros a = 0.
Proof.
  intros Hlen Hf. unfold count_zeros.
  destruct (filter _ a) as [|x l] eqn:E; [done|].
  assert (x ∈ filter (λ v, v = 0%Z) a) as Hx by (rewrite E; left).
  apply list_elem_of_filter in Hx as [-> Hx].
  apply list_elem_of_lookup in Hx as [i Hi].
  destruct (Hf i); [|done]. apply lookup_lt_Some in Hi. lia.
Qed.

(** The loop of [makePuzzle]: it only writes to [puzzle], keeps it solvable,
    only erases cells, and stops erasing once [removals] is reached. *)
Lemma makePuzzle_loop_spec (puzzle : loc) (removals : Z) (order : list nat) :
  ∀ (removed : Z) (σ : store) (p : list Z),
  σ !! puzzle = Some p →
  ∃ σ' p', makePuzzle_loop puzzle removals order removed σ = Done σ' ∧
    σ' !! puzzle = Some p' ∧ erases p p' ∧
    (∀ l, l < length σ → l ≠ puzzle → σ' !! l = σ !! l) ∧
    length σ ≤ length σ' ∧
    (solvable p → solvable p') ∧
    ((Z.of_nat (count_zeros p) ≤ removed)%Z →
     (Z.of_nat (count_zeros p') ≤ Z.max removed removals)%Z).
Proof.
  induction order as [|idx order IH]; intros removed σ p Hp; simpl.
  { exists σ, p. split_and!; [done | done | apply erases_refl | done | done | done | lia]. }
  destruct (removed >=? removals)%Z eqn:Hbreak.
  { exists σ, p. split_and!; [done | done | apply erases_refl | done | done | done | lia]. }
  rewrite Z.geb_leb in Hbreak. apply Z.leb_gt in Hbreak.
  pose proof (write_lookup σ puzzle idx 0 p Hp) as Hp1.
  destruct (solve_eq _ puzzle _ Hp1) as (b & a' & Hb & ->).
  assert (puzzle < length σ) as Hlt by (by eapply lookup_lt_Some).
  destruct b.
  - destruct (IH (removed + 1)%Z (write puzzle idx 0 σ ++ [a']) (<[idx:=0%Z]> p))
      as (σ' & p' & Hrun & Hp' & He & Hframe & Hlen & Hsolv & Hcount).
    { by apply lookup_app_l_Some. }
    rewrite length_app, length_write in Hframe, Hlen. simpl in Hframe, Hlen.
    exists σ', p'. split_and!; [done | done | | | lia | |].
    + eapply erases_trans; [apply erases_insert | done].
    + intros l Hl Hne. rewrite Hframe by (done || lia).
      rewrite lookup_app_l by (rewrite length_write; lia).
      by apply write_lookup_ne.
    + intros _. apply Hsolv. by exists a'.
    + intros Hc. pose proof (count_zeros_insert_le p idx 0). lia.
  - unfold read. rewrite (list_lookup_total_correct _ _ _ Hp).
    destruct (IH removed (write puzzle idx (p !!! idx) (write puzzle idx 0 σ ++ [a'])) p)
      as (σ' & p' & Hrun & Hp' & He & Hframe & Hlen & Hsolv & Hcount).
    { erewrite write_lookup; [|by apply lookup_app_l_Some].
      by rewrite restore_write. }
    rewrite length_write, length_app, length_write in Hframe, Hlen.
    simpl in Hframe, Hlen.
    exists σ', p'. split_and!; [done | done | done | | lia | done | done].
    intros l Hl Hne. rewrite Hframe by (done || lia).
    rewrite write_lookup_ne by done.
    rewrite lookup_app_l by (rewrite length_write; lia).
    by apply write_lookup_ne.
Qed.

Lemma makePuzzle_spec (solved : loc) (removals : Z) (r : rand) (σ : store)
    (a : list Z) :
  σ !! solved = Some a →
  ∃ r' σ' p, makePuzzle solved removals r σ = Done (length σ, r', σ') ∧
    σ' !! length σ = Some p ∧ erases a p ∧
    (∀ l, l < length σ → σ' !! l = σ !! l) ∧
    (solvable a → solvable p) ∧
    ((Z.of_nat (count_zeros a) ≤ 0)%Z →
     (Z.of_nat (count_zeros p) ≤ Z.max 0 removals)%Z).
Proof.
  intros Ha. unfold makePuzzle, slice.
  rewrite (list_lookup_total_correct _ _ _ Ha).
  destruct (shuffle (seq 0 81) r) as [order r'].
  destruct (makePuzzle_loop_spec (length σ) removals order 0 (σ ++ [a]) a)
    as (σ' & p & Hrun & Hp & He & Hframe & Hlen & Hsolv & Hcount).
  { by apply list_lookup_middle. }
  rewrite Hrun. exists r', σ', p.
  split_and!; [done..| |done|done].
  intros l Hl. rewrite Hframe; [by apply lookup_app_l | | lia].
  rewrite length_app. simpl. lia.
Qed.

Lemma reference_full : full reference.
Proof. by apply findEmpty_None. Qed.

(** C3: carving a full board of 81 cells by a non-negative number of
    removals always ends, with a puzzle on which [solve] succeeds and whose
    number of empty cells is at most [removals] and at most 81. *)
Theorem makePuzzle_solvable_bounded (solved : loc) (removals : Z) (r : rand)
    (σ : store) (a : list Z) :
  σ !! solved = Some a → length a = 81 → full a → (0 ≤ removals)%Z →
  ∃ puzzle r' σ' p,
    makePuzzle solved removals r σ = Done (puzzle, r', σ') ∧
    σ' !! puzzle = Some p ∧
    (∃ g σ'', solve puzzle σ' = Done (Some g, σ'')) ∧
    (Z.of_nat (count_zeros p) ≤ Z.min removals 81)%Z.
Proof.
  intros Ha Hlen Hfull Hrem.
  destruct (makePuzzle_spec solved removals r σ a Ha)
    as (r' & σ' & p & Hrun & Hp & [Hlp _] & _ & Hsolv & Hcount).
  exists (length σ), r', σ', p. split_and!; [done | done | |].
  - eapply solvable_solve; [done|]. by apply Hsolv, full_solvable.
  - rewrite full_count_zeros in Hcount by done.
    pose proof (count_zeros_length p). lia.
Qed.

Lemma makePuzzle_solvable_bounded_witness :
  ∃ puzzle r' σ' p,
    makePuzzle 0 40 r0 [reference] = Done (puzzle, r', σ') ∧
    σ' !! puzzle = Some p ∧
    (∃ g σ'', solve puzzle σ' = Done (Some g, σ'')) ∧
    (Z.of_nat (count_zeros p) ≤ Z.min 40 81)%Z.
Proof.
  apply (makePuzzle_solvable_bounded 0 40 r0 [reference] reference);
    [reflexivity | reflexivity | apply reference_full | lia].
Defined.

(** C10: on a board of 81 cells [makePuzzle] works on a fresh array; the
    array it was given is left as it was, like every other array of the
    store, and each cell of the result holds what the input holds there
    or [0]. *)
Theorem makePuzzle_only_erases (solved : loc) (removals : Z) (r : rand)
    (σ : store) (a : list Z) :
  σ !! solved = Some a → length a = 81 →
  ∃ puzzle r' σ' p,
    makePuzzle solved removals r σ = Done (puzzle, r', σ') ∧
    puzzle ≠ solved ∧ σ' !! solved = Some a ∧
    (∀ l, l < length σ → σ' !! l = σ !! l) ∧
    σ' !! puzzle = Some p ∧ length p = 81 ∧
    ∀ i, i < 81 → p !! i = a !! i ∨ p !! i = Some 0%Z.
Proof.
  intros Ha Hlen.
  destruct (makePuzzle_spec solved removals r σ a Ha)
    as (r' & σ' & p & Hrun & Hp & [Hlp He] & Hframe & _ & _).
  pose proof (lookup_lt_Some _ _ _ Ha) as Hlt.
  exists (length σ), r', σ', p.
  split_and!; [done | lia | by rewrite Hframe | done | done | congruence | auto].
Qed.

Lemma makePuzzle_only_erases_witness :
  ∃ puzzle r' σ' p,
    makePuzzle 0 40 r0 [reference] = Done (puzzle, r', σ') ∧
    puzzle ≠ 0 ∧ σ' !! 0 = Some reference ∧
    (∀ l, l < length [reference] → σ' !! l = [reference] !! l) ∧
    σ' !! puzzle = Some p ∧ length p = 81 ∧
    ∀ i, i < 81 → p !! i = reference !! i ∨ p !! i = Some 0%Z.
Proof.
  apply (makePuzzle_only_erases 0 40 r0 [reference] reference); reflexivity.
Defined.

(** ** [shuffle] permutes *)

Lemma swap_Permutation {A} (a : list A) (i j : nat) : swap a i j ≡ₚ a.
Proof.
  unfold swap. destruct (a !! i) as [x|] eqn:Hi; [|done].
  destruct (a !! j) as [y|] eqn:Hj; [|done].
  pose proof (lookup_lt_Some _ _ _ Hi) as Hli.
  pose proof (lookup_lt_Some _ _ _ Hj) as Hlj.
  apply Permutation_inj. split; [by rewrite !length_insert|].
  exists (λ k, if decide (k = i) then j else if decide (k = j) then i else k).
  split.
  - intros k1 k2. repeat case_decide; congruence.
  - intros k. destruct (decide (k = j)) as [->|Hkj].
    + rewrite list_lookup_insert_eq by (by rewrite length_insert).
      repeat case_decide; congruence.
    + rewrite list_lookup_insert_ne by done.
      destruct (decide (k = i)) as [->|Hki].
      * by rewrite list_lookup_insert_eq.
      * by rewrite list_lookup_insert_ne.
Qed.

Lemma shuffle_from_Permutation {A} (i : nat) (a : list A) (r : rand) :
  (shuffle_from i a r).1 ≡ₚ a.
Proof.
  revert a r. induction i as [|i IH]; intros a r; [done|].
  cbn [shuffle_from]. destruct (random_below (S i + 1) r) as [j r'].
  rewrite IH. apply swap_Permutation.
Qed.

Lemma shuffle_Permutation {A} (a : list A) (r : rand) : (shuffle a r).1 ≡ₚ a.
Proof. apply shuffle_from_Permutation. Qed.

(** ** The generator *)

Lemma tracks_put (sets : list (gset Z)) (key : nat → nat) (pos : nat)
    (g : list Z) (n : Z) :
  tracks sets key pos g → pos < length g → key pos < 9 →
  tracks (set_add sets (key pos) n) key (pos + 1) (<[pos:=n]> g).
Proof.
  intros [Hlen Ht] Hpos Hkey. split; [by unfold set_add; rewrite length_alter|].
  intros u m Hu. unfold set_add. rewrite list_lookup_total_alter.
  case_decide as Hc.
  - destruct Hc as [<- _]. rewrite elem_of_union, elem_of_singleton, Ht by done.
    split.
    + intros [->|(i & Hi & Hk & Hv)].
      * exists pos. split_and!; [lia | done | by apply list_lookup_insert_eq].
      * exists i. split_and!; [lia | done |].
        rewrite list_lookup_insert_ne by lia. done.
    + intros (i & Hi & Hk & Hv). destruct (decide (i = pos)) as [->|Hne].
      * rewrite list_lookup_insert_eq in Hv by done. left. congruence.
      * rewrite list_lookup_insert_ne in Hv by done.
        right. exists i. split_and!; [lia | done..].
  - rewrite Ht by done. split.
    + intros (i & Hi & Hk & Hv). exists i. split_and!; [lia | done |].
      rewrite list_lookup_insert_ne by lia. done.
    + intros (i & Hi & Hk & Hv). destruct (decide (i = pos)) as [->|Hne].
      * destruct Hc. split; [done | lia].
      * rewrite list_lookup_insert_ne in Hv by done.
        exists i. split_and!; [lia | done..].
Qed.

Lemma set_delete_add (sets : list (gset Z)) (k : nat) (n : Z) :
  n ∉ sets !!! k → set_delete (set_add sets k n) k n = sets.
Proof.
  intros Hn. unfold set_delete, set_add. apply list_eq. intros i.
  destruct (decide (i = k)) as [->|Hne];
    [|by rewrite !list_lookup_alter_ne].
  rewrite !list_lookup_alter_eq.
  destruct (sets !! k) as [s|] eqn:E; [|done]. simpl. f_equal.
  rewrite (list_lookup_total_correct _ _ _ E) in Hn. set_solver.
Qed.

Lemma set_has_tracks (sets : list (gset Z)) (key : nat → nat) (pos : nat)
    (g : list Z) (n : Z) :
  tracks sets key pos g → key pos < 9 →
  set_has sets (key pos) n = true ↔
  ∃ i, i < pos ∧ key i = key pos ∧ g !! i = Some n.
Proof.
  intros [_ Ht] Hk. unfold set_has. rewrite bool_decide_eq_true. by apply Ht.
Qed.

Lemma row_lt (pos : nat) : pos < 81 → row pos < 9.
Proof. unfold row. lia. Qed.
Lemma col_lt (pos : nat) : col pos < 9.
Proof. unfold col. lia. Qed.
Lemma block_lt (pos : nat) : pos < 81 → block pos < 9.
Proof. unfold block, blockIndex, row, col. lia. Qed.

(** [taken] finds exactly the numbers already placed in a unit of [pos]. *)
Lemma taken_spec (pos : nat) (n : Z) (st : gen_state) :
  pos < 81 → gen_inv pos st →
  taken pos n st = true ↔
  ∃ i, i < pos ∧ same_unit pos i ∧ grid st !! i = Some n.
Proof.
  intros Hpos (_ & _ & _ & _ & Hr & Hc & Hb). unfold taken.
  change (pos / 9) with (row pos). change (pos mod 9) with (col pos).
  change (blockIndex (row pos) (col pos)) with (block pos).
  rewrite !orb_true_iff.
  rewrite (set_has_tracks _ _ _ _ _ Hr) by (by apply row_lt).
  rewrite (set_has_tracks _ _ _ _ _ Hc) by apply col_lt.
  rewrite (set_has_tracks _ _ _ _ _ Hb) by (by apply block_lt).
  unfold same_unit. split.
  - intros [[(i & ? & ? & ?)|(i & ? & ? & ?)]|(i & ? & ? & ?)];
      exists i; split_and!; auto.
  - intros (i & ? & [?|[?|?]] & ?); [left; left | left; right | right];
      exists i; split_and!; auto.
Qed.

Lemma gen_inv_put (pos : nat) (n : Z) (st : gen_state) :
  pos < 81 → gen_inv pos st → taken pos n st = false → (1 ≤ n ≤ 9)%Z →
  gen_inv (pos + 1) (put pos n st).
Proof.
  intros Hpos Hinv Htaken Hn.
  pose proof (taken_spec pos n st Hpos Hinv) as Hspec.
  destruct Hinv as (Hlen & Hlow & Hhigh & Hnd & Hr & Hc & Hb).
  assert (∀ j, j < 81 → j ≠ pos → same_unit pos j → grid st !! j ≠ Some n) as Hfree.
  { intros j Hj Hne Hu Hv. destruct (decide (j < pos)) as [Hlt|Hge].
    - assert (taken pos n st = true) by (apply Hspec; eauto). congruence.
    - rewrite Hhigh in Hv by lia. injection Hv as <-. lia. }
  unfold put, gen_inv. cbn [grid rows cols blocks]. split_and!.
  - by rewrite length_insert.
  - intros i Hi. destruct (decide (i = pos)) as [->|Hne].
    + exists n. split; [|done]. apply list_lookup_insert_eq. lia.
    + rewrite list_lookup_insert_ne by done. apply Hlow. lia.
  - intros i Hi Hi'. rewrite list_lookup_insert_ne by lia. apply Hhigh; lia.
  - intros i j (Hi & Hj & Hne & Hu & v & Hv0 & Ei & Ej).
    destruct (decide (i = pos)) as [->|Hi'], (decide (j = pos)) as [->|Hj'].
    + done.
    + rewrite list_lookup_insert_eq in Ei by lia. injection Ei as <-.
      rewrite list_lookup_insert_ne in Ej by done. by destruct (Hfree j).
    + rewrite list_lookup_insert_eq in Ej by lia. injection Ej as <-.
      rewrite list_lookup_insert_ne in Ei by done.
      destruct (Hfree i); [done | done | by apply same_unit_sym | done].
    + rewrite list_lookup_insert_ne in Ei, Ej by done.
      apply (Hnd i j). split_and!; [done..|]. eauto.
  - apply (tracks_put _ row); [done | lia | by apply row_lt].
  - apply (tracks_put _ col); [done | lia | apply col_lt].
  - apply (tracks_put _ block); [done | lia | by apply block_lt].
Qed.

Lemma unput_put (pos : nat) (n : Z) (st : gen_state) :
  pos < 81 → gen_inv pos st → taken pos n st = false →
  unput pos n (put pos n st) = st.
Proof.
  intros Hpos (Hlen & _ & Hhigh & _) Htaken. unfold taken in Htaken.
  apply orb_false_iff in Htaken as [[Hr Hc]%orb_false_iff Hb].
  unfold set_has in Hr, Hc, Hb. apply bool_decide_eq_false in Hr, Hc, Hb.
  destruct st as [g rs cs bs]. unfold unput, put. cbn [grid rows cols blocks] in *.
  rewrite !set_delete_add by done.
  rewrite list_insert_insert_eq, list_insert_id; [done|]. apply Hhigh; lia.
Qed.

Lemma taken_no_completion (pos : nat) (n : Z) (st : gen_state) (sol : list Z) :
  pos < 81 → gen_inv pos st → taken pos n st = true →
  completion pos (grid st) sol → sol !! pos ≠ Some n.
Proof.
  intros Hpos Hinv Htaken (_ & _ & Hnd & Hagree) Hsol.
  apply (taken_spec pos n st Hpos Hinv) in Htaken as (i & Hi & Hu & Hv).
  destruct Hinv as (_ & Hlow & _).
  destruct (Hlow i Hi) as (v & Hv' & Hrange).
  apply (Hnd pos i). split_and!; [done | lia | lia | done |].
  exists n. split_and!; [|done|by rewrite Hagree].
  rewrite Hv in Hv'. injection Hv' as ->. lia.
Qed.

Lemma completion_step (pos : nat) (n : Z) (g sol : list Z) :
  pos < length g → completion pos g sol → sol !! pos = Some n →
  completion (pos + 1) (<[pos:=n]> g) sol.
Proof.
  intros Hpos (Hlen & Hv & Hnd & Hagree) Hsol. split_and!; [done..|].
  intros i Hi. destruct (decide (i = pos)) as [->|Hne].
  - by rewrite list_lookup_insert_eq.
  - rewrite list_lookup_insert_ne by done. apply Hagree. lia.
Qed.

Lemma place_loop_post
    (rec : gen_state → rand → outcome (bool * gen_state * rand))
    (pos : nat) (nums : list Z) (st : gen_state) :
  pos < 81 → gen_inv pos st →
  (∀ st1 r1, gen_inv (pos + 1) st1 → place_post (pos + 1) st1 (rec st1 r1)) →
  (∀ n, n ∈ nums → (1 ≤ n ≤ 9)%Z) →
  ∀ r,
  match place_loop rec pos nums st r with
  | Done (true, st', _) => gen_inv 81 st'
  | Done (false, st', _) =>
      st' = st ∧
      ∀ sol n, n ∈ nums → completion pos (grid st) sol → sol !! pos ≠ Some n
  | OutOfFuel => False
  end.
Proof.
  intros Hpos Hinv Hrec. induction nums as [|n nums IH]; intros Hnums r.
  { simpl. split; [done|]. by intros sol n ?%elem_of_nil. }
  assert (∀ m, m ∈ nums → (1 ≤ m ≤ 9)%Z) as Hnums'
    by (intros m Hm; apply Hnums; by right).
  assert (1 ≤ n ≤ 9)%Z as Hn by (apply Hnums; left).
  cbn [place_loop]. destruct (taken pos n st) eqn:Htaken.
  - specialize (IH Hnums' r).
    destruct (place_loop rec pos nums st r) as [[[[] st'] r']|]; [done| |done].
    destruct IH as [-> IH]. split; [done|].
    intros sol m [->|Hm]%elem_of_cons Hsol; [|by apply IH].
    by eapply taken_no_completion.
  - pose proof (gen_inv_put pos n st Hpos Hinv Htaken Hn) as Hinv1.
    specialize (Hrec (put pos n st) r Hinv1).
    destruct (rec (put pos n st) r) as [[[[] st'] r']|]; simpl in Hrec; [done| |done].
    destruct Hrec as [-> Hnone]. rewrite unput_put by done.
    specialize (IH Hnums' r').
    destruct (place_loop rec pos nums st r') as [[[[] st''] r'']|]; [done| |done].
    destruct IH as [-> IH]. split; [done|].
    intros sol m [->|Hm]%elem_of_cons Hsol; [|by apply IH].
    intros Hv. apply (Hnone sol). cbn [put grid].
    apply completion_step; [|done..].
    destruct Hinv as (Hlen & _). lia.
Qed.

Lemma place_eq (fuel pos : nat) (st : gen_state) (r : rand) :
  place fuel pos st r =
  if pos =? 81 then Done (true, st, r)
  else
    match fuel with
    | 0 => OutOfFuel
    | S fuel' =>
        let '(nums, r1) := shuffle digits r in
        place_loop (place fuel' (pos + 1)) pos nums st r1
    end.
Proof. by destruct fuel. Qed.

(** [place] explores every candidate, so it fails only where the board has
    no completion; 81 levels of recursion are enough from cell 0. *)
Lemma place_spec (fuel : nat) :
  ∀ pos st r, pos + fuel = 81 → gen_inv pos st →
  place_post pos st (place fuel pos st r).
Proof.
  induction fuel as [|fuel IH]; intros pos st r Hfuel Hinv; rewrite place_eq.
  { replace pos with 81 in * by lia. simpl. done. }
  destruct (pos =? 81) eqn:E; [apply Nat.eqb_eq in E; lia|].
  pose proof (shuffle_Permutation digits r) as Hperm.
  destruct (shuffle digits r) as [nums r1]. simpl in Hperm.
  assert (pos < 81) as Hpos by lia.
  pose proof (place_loop_post (place fuel (pos + 1)) pos nums st Hpos Hinv) as Hloop.
  specialize (Hloop ltac:(intros st1 r2 H1; apply IH; [lia | done])).
  specialize (Hloop ltac:(intros n Hn; apply digits_range; by rewrite <- Hperm) r1).
  unfold place_post.
  destruct (place_loop _ pos nums st r1) as [[[[] st'] r']|]; [done| |done].
  destruct Hloop as [-> Hnone]. split; [done|].
  intros sol Hsol. pose proof Hsol as (_ & Hv & _).
  destruct (Hv pos Hpos) as (v & Hv' & Hrange).
  apply (Hnone sol v); [|done..].
  rewrite Hperm. by apply digits_range.
Qed.

Lemma gen_init_inv : gen_inv 0 gen_init.
Proof.
  unfold gen_inv, gen_init. cbn [grid rows cols blocks]. split_and!.
  - by rewrite length_replicate.
  - intros i Hi. lia.
  - intros i _ Hi. by apply lookup_replicate_2.
  - intros i j (_ & _ & _ & _ & v & Hv & Hi%lookup_replicate_1 & _). by destruct Hi.
  - split; [done|]. intros u n Hu.
    rewrite lookup_total_replicate_2 by done.
    split; [set_solver | intros (i & Hi & _); lia].
  - split; [done|]. intros u n Hu.
    rewrite lookup_total_replicate_2 by done.
    split; [set_solver | intros (i & Hi & _); lia].
  - split; [done|]. intros u n Hu.
    rewrite lookup_total_replicate_2 by done.
    split; [set_solver | intros (i & Hi & _); lia].
Qed.

Lemma complete_boardb_spec (a : list Z) :
  complete_boardb a = true → complete_board a.
Proof.
  unfold complete_boardb. rewrite !andb_true_iff, Nat.eqb_eq, !forallb_forall.
  intros [[Hlen Hv] Hd]. split_and!; [done | |].
  - intros i Hi. destruct (lookup_lt_is_Some_2 a i) as [v Hiv]; [lia|].
    exists v. split; [done|].
    specialize (Hv v). rewrite <- list_elem_of_In in Hv.
    specialize (Hv ltac:(by eapply list_elem_of_lookup_2)). lia.
  - intros i j (Hi & Hj & Hne & Hu & v & _ & Ei & Ej).
    specialize (Hd i). rewrite <- list_elem_of_In, elem_of_seq in Hd.
    specialize (Hd ltac:(lia)). rewrite forallb_forall in Hd.
    specialize (Hd j). rewrite <- list_elem_of_In, elem_of_seq in Hd.
    specialize (Hd ltac:(lia)).
    apply same_unitb_spec in Hu. apply Nat.eqb_neq in Hne.
    rewrite Hne, Hu, bool_decide_eq_true_2 in Hd by congruence. done.
Qed.

Lemma reference_complete : complete_board reference.
Proof. apply complete_boardb_spec. by vm_compute. Qed.

Lemma gen_inv_complete (st : gen_state) : gen_inv 81 st → complete_board (grid st).
Proof. intros (Hlen & Hlow & _ & Hnd & _). by split_and!. Qed.

Lemma complete_board_full (a : list Z) : complete_board a → full a.
Proof.
  intros (_ & Hv & _) i Hi Hz. destruct (Hv i Hi) as (v & Hv' & Hr).
  rewrite Hz in Hv'. injection Hv' as <-. lia.
Qed.

(** Nine cells of one unit of a complete board hold 1 to 9 in some order. *)
Lemma unit_Permutation (a : list Z) (cells : list nat) :
  complete_board a → NoDup cells → length cells = 9 →
  (∀ k, k ∈ cells → k < 81) →
  (∀ k1 k2, k1 ∈ cells → k2 ∈ cells → same_unit k1 k2) →
  values a cells ≡ₚ digits.
Proof.
  intros (Hlen & Hv & Hnd) Hcells Hnine Hlt Hunit.
  assert (∀ k, k ∈ cells → a !! k = Some (a !!! k) ∧ (1 ≤ a !!! k ≤ 9)%Z) as Hval.
  { intros k Hk. destruct (Hv k (Hlt k Hk)) as (v & Hkv & Hr).
    by rewrite (list_lookup_total_correct _ _ _ Hkv). }
  apply submseteq_length_Permutation.
  - apply NoDup_submseteq.
    + apply NoDup_fmap_2_strong; [|done].
      intros k1 k2 Hk1 Hk2 Heq. destruct (decide (k1 = k2)) as [|Hne]; [done|].
      destruct (Hnd k1 k2). split_and!; [auto..|].
      exists (a !!! k1). destruct (Hval k1 Hk1), (Hval k2 Hk2).
      split_and!; [lia | done | congruence].
    + intros v (k & -> & Hk)%list_elem_of_fmap.
      apply digits_range. by apply Hval.
  - unfold values. rewrite length_fmap, Hnine. done.
Qed.

Lemma complete_board_solved (a : list Z) : complete_board a → solved_grid a.
Proof.
  intros Ha. split; [by destruct Ha|]. intros u Hu. split_and!.
  - apply unit_Permutation; [done| | | |].
    + apply NoDup_fmap_2_strong; [intros; lia | apply NoDup_seq].
    + unfold row_cells. by rewrite length_fmap, length_seq.
    + intros k (i & -> & Hi%elem_of_seq)%list_elem_of_fmap. lia.
    + intros k1 k2 (i1 & -> & Hi1%elem_of_seq)%list_elem_of_fmap
        (i2 & -> & Hi2%elem_of_seq)%list_elem_of_fmap.
      left. unfold row. lia.
  - apply unit_Permutation; [done| | | |].
    + apply NoDup_fmap_2_strong; [intros; lia | apply NoDup_seq].
    + unfold col_cells. by rewrite length_fmap, length_seq.
    + intros k (i & -> & Hi%elem_of_seq)%list_elem_of_fmap. lia.
    + intros k1 k2 (i1 & -> & Hi1%elem_of_seq)%list_elem_of_fmap
        (i2 & -> & Hi2%elem_of_seq)%list_elem_of_fmap.
      right; left. unfold col. lia.
  - apply unit_Permutation; [done| | | |].
    + apply NoDup_fmap_2_strong; [|apply NoDup_seq].
      intros d1 d2 Hd1%elem_of_seq Hd2%elem_of_seq. lia.
    + unfold block_cells. by rewrite length_fmap, length_seq.
    + intros k (i & -> & Hi%elem_of_seq)%list_elem_of_fmap. lia.
    + intros k1 k2 (i1 & -> & Hi1%elem_of_seq)%list_elem_of_fmap
        (i2 & -> & Hi2%elem_of_seq)%list_elem_of_fmap.
      right; right. unfold block, blockIndex, row, col. lia.
Qed.

(** [generateSolved] allocates one array and it is a complete board: the
    search cannot fail on the empty board, which has a completion. *)
Lemma generateSolved_spec (r : rand) (σ : store) :
  ∃ r' a, generateSolved r σ = Done (length σ, r', σ ++ [a]) ∧ complete_board a.
Proof.
  unfold generateSolved.
  pose proof (place_spec 81 0 gen_init r eq_refl gen_init_inv) as Hp.
  destruct (place 81 0 gen_init r) as [[[[] st] r']|]; simpl in Hp; [| |done].
  - exists r', (grid st). split; [done|]. by apply gen_inv_complete.
  - destruct Hp as [_ Hnone]. destruct (Hnone reference).
    destruct reference_complete as (H1 & H2 & H3).
    split_and!; [done..|]. intros i Hi. lia.
Qed.

(** C2: every call of [generateSolved] ends and returns a board of 81
    cells, none of them empty, in which each row, each column and each
    block is a permutation of 1 to 9. *)
Theorem generateSolved_solved (r : rand) (σ : store) :
  ∃ g r' σ' a,
    generateSolved r σ = Done (g, r', σ') ∧ σ' !! g = Some a ∧
    full a ∧ solved_grid a.
Proof.
  destruct (generateSolved_spec r σ) as (r' & a & Hrun & Ha).
  exists (length σ), r', (σ ++ [a]), a.
  split_and!; [done | by apply list_lookup_middle | |].
  - by apply complete_board_full.
  - by apply complete_board_solved.
Qed.

(** ** What [solve] returns *)

(** C1 (as amended): [solve(grid)] returns [null] or an array with no empty
    cell in which every number of the input is where it was, every cell that
    was empty holds a digit from 1 to 9, and every duplicate inside a row, a
    column or a block was already one of the input; so the result of a
    search on an input without duplicates has none, and is a solved board
    when the input has 81 cells from 0 to 9.  The input array is left as it
    was. *)
Theorem solve_completion (σ : store) (grid : loc) (a : list Z) :
  σ !! grid = Some a →
  ∃ res σ', solve grid σ = Done (res, σ') ∧ σ' !! grid = Some a ∧
    match res with
    | None => True
    | Some g =>
        ∃ a', σ' !! g = Some a' ∧ fills a a' ∧ preserves a a' ∧ full a' ∧
          (∀ i j, duplicate a' i j → duplicate a i j) ∧
          (no_duplicates a → no_duplicates a') ∧
          (no_duplicates a → length a = 81 →
           (∀ i v, a !! i = Some v → (0 ≤ v ≤ 9)%Z) → solved_grid a')
    end.
Proof.
  intros Hg. destruct (solve_eq σ grid a Hg) as (b & a' & Hb & Hs).
  eexists _, _. split; [exact Hs|].
  split; [by apply lookup_app_l_Some|].
  destruct b; [|done].
  pose proof (backtrack_post 81 a) as Hp. rewrite Hb in Hp.
  destruct Hp as (Hf & Hfull & Hd).
  assert (no_duplicates a → no_duplicates a') as Hkeep.
  { intros Hno i j Hij. by apply (Hno i j), Hd. }
  exists a'. split; [by apply list_lookup_middle|].
  split_and!; [done | by apply fills_preserves | done | done | done |].
  intros Hno Hlen Hrange. apply complete_board_solved.
  destruct Hf as [Hlen' Hf]. split_and!; [congruence | | by apply Hkeep].
  intros i Hi. destruct (lookup_lt_is_Some_2 a' i) as [v Hv]; [lia|].
  exists v. split; [done|].
  destruct (Hf i) as [E|(_ & w & E & Hw)]; [|congruence].
  rewrite Hv in E. symmetry in E. pose proof (Hrange i v E).
  assert (v ≠ 0%Z) by (intros ->; by destruct (Hfull i Hi)). lia.
Qed.

Lemma solve_completion_witness :
  ∃ res σ', solve 0 [replicate 81 0%Z] = Done (res, σ') ∧
    σ' !! 0 = Some (replicate 81 0%Z) ∧
    match res with
    | None => True
    | Some g =>
        ∃ a', σ' !! g = Some a' ∧ fills (replicate 81 0%Z) a' ∧
          preserves (replicate 81 0%Z) a' ∧ full a' ∧
          (∀ i j, duplicate a' i j → duplicate (replicate 81 0%Z) i j) ∧
          (no_duplicates (replicate 81 0%Z) → no_duplicates a') ∧
          (no_duplicates (replicate 81 0%Z) → length (replicate 81 0%Z) = 81 →
           (∀ i v, replicate 81 0%Z !! i = Some v → (0 ≤ v ≤ 9)%Z) →
           solved_grid a')
    end.
Proof. apply (solve_completion [replicate 81 0%Z] 0). reflexivity. Defined.

(** C1 as stated fails: a board that is already full is handed back as it
    is, here with two 3s at the start of its first row. *)
Lemma solve_returns_invalid_grid :
  ∃ g σ', solve 0 [spoiled] = Done (Some g, σ') ∧
    σ' !! g = Some spoiled ∧ duplicate spoiled 0 1 ∧ ¬ no_duplicates spoiled.
Proof.
  assert (duplicate spoiled 0 1) as Hd.
  { split_and!; [lia | lia | done | by left |].
    exists 3%Z. split_and!; [done | reflexivity | reflexivity]. }
  exists 1, [spoiled; spoiled].
  split_and!; [by vm_compute | reflexivity | exact Hd |].
  intros Hno. exact (Hno 0 1 Hd).
Qed.

(** ** The conflict detector *)

Lemma cond_mark (b : bool) (i : nat) (marks : gset nat) (x : nat) :
  x ∈ (if b then {[i]} ∪ marks else marks) ↔ x ∈ marks ∨ (x = i ∧ b = true).
Proof. destruct b; set_solver. Qed.

Lemma hit_spec (st : list Z) (k i : nat) (val : Z) :
  bool_decide (k ≠ i) && cell_is st k val = true ↔ k ≠ i ∧ st !! k = Some val.
Proof. by rewrite andb_true_iff, bool_decide_eq_true, cell_is_spec. Qed.

Lemma mark_lines_spec (st : list Z) (i r c : nat) (val : Z) (js : list nat)
    (marks : gset nat) (x : nat) :
  x ∈ mark_lines st i r c val js marks ↔
  x ∈ marks ∨
  (x = i ∧ ∃ j, j ∈ js ∧
     ((r * 9 + j ≠ i ∧ st !! (r * 9 + j) = Some val) ∨
      (j * 9 + c ≠ i ∧ st !! (j * 9 + c) = Some val))).
Proof.
  revert marks. induction js as [|j js IH]; intros marks; cbn [mark_lines].
  { setoid_rewrite elem_of_nil. naive_solver. }
  rewrite IH, !cond_mark, !hit_spec. setoid_rewrite elem_of_cons. naive_solver.
Qed.

Lemma mark_block_row_spec (st : list Z) (i rr : nat) (val : Z) (ccs : list nat)
    (marks : gset nat) (x : nat) :
  x ∈ mark_block_row st i rr val ccs marks ↔
  x ∈ marks ∨
  (x = i ∧ ∃ cc, cc ∈ ccs ∧ rr * 9 + cc ≠ i ∧ st !! (rr * 9 + cc) = Some val).
Proof.
  revert marks. induction ccs as [|cc ccs IH]; intros marks; cbn [mark_block_row].
  { setoid_rewrite elem_of_nil. naive_solver. }
  rewrite IH, !cond_mark, !hit_spec. setoid_rewrite elem_of_cons. naive_solver.
Qed.

Lemma mark_block_spec (st : list Z) (i : nat) (val : Z) (rrs ccs : list nat)
    (marks : gset nat) (x : nat) :
  x ∈ mark_block st i val rrs ccs marks ↔
  x ∈ marks ∨
  (x = i ∧ ∃ rr cc, rr ∈ rrs ∧ cc ∈ ccs ∧
     rr * 9 + cc ≠ i ∧ st !! (rr * 9 + cc) = Some val).
Proof.
  revert marks. induction rrs as [|rr rrs IH]; intros marks; cbn [mark_block].
  { setoid_rewrite elem_of_nil. naive_solver. }
  rewrite IH, mark_block_row_spec. setoid_rewrite elem_of_cons. naive_solver.
Qed.

(** The marks one cell [i] holding [val] gets: some other cell of its row,
    column or block holds [val] too. *)
Lemma mark_cell_spec (st : list Z) (i : nat) (val : Z) (marks : gset nat) (x : nat) :
  i < 81 →
  x ∈ mark_block st i val (seq (i / 9 / 3 * 3) 3) (seq (i mod 9 / 3 * 3) 3)
        (mark_lines st i (i / 9) (i mod 9) val (seq 0 9) marks) ↔
  x ∈ marks ∨
  (x = i ∧ ∃ k, k < 81 ∧ k ≠ i ∧ same_unit i k ∧ st !! k = Some val).
Proof.
  intros Hi. rewrite mark_block_spec, mark_lines_spec.
  setoid_rewrite elem_of_seq. split.
  - intros [[?|(-> & j & Hj & [[Hne Hv]|[Hne Hv]])]|(-> & rr & cc & Hr & Hc & Hne & Hv)];
      [by left | right; split; [done|]; eexists; split_and!; [| |apply same_unit_cases|exact Hv]; lia ..].
  - intros [?|(-> & k & Hk & Hne & Hu & Hv)]; [by left; left|].
    apply same_unit_cases in Hu as [Hu|[Hu|Hu]]; [| | |done..].
    + left; right. split; [done|]. exists (k mod 9). split; [lia|]. left.
      replace (i / 9 * 9 + k mod 9) with k by lia. done.
    + left; right. split; [done|]. exists (k / 9). split; [lia|]. right.
      replace (k / 9 * 9 + i mod 9) with k by lia. done.
    + right. split; [done|]. exists (k / 9), (k mod 9).
      replace (k / 9 * 9 + k mod 9) with k by lia. split_and!; [lia..|done|done].
Qed.

Lemma mark_cells_spec (st : list Z) (ixs : list nat) (marks : gset nat) (x : nat) :
  (∀ i, i ∈ ixs → i < 81) →
  x ∈ mark_cells st ixs marks ↔
  x ∈ marks ∨
  (x ∈ ixs ∧ ∃ val, st !! x = Some val ∧ val ≠ 0%Z ∧
     ∃ k, k < 81 ∧ k ≠ x ∧ same_unit x k ∧ st !! k = Some val).
Proof.
  revert marks. induction ixs as [|i ixs IH]; intros marks Hixs; cbn [mark_cells].
  { setoid_rewrite elem_of_nil. naive_solver. }
  assert (i < 81) as Hi by (apply Hixs; left).
  assert (∀ i, i ∈ ixs → i < 81) as Hixs' by (intros k Hk; apply Hixs; by right).
  setoid_rewrite elem_of_cons.
  destruct (st !! i) as [val|] eqn:E.
  - destruct (val =? 0)%Z eqn:Ez.
    + apply Z.eqb_eq in Ez. rewrite IH by done. naive_solver.
    + apply Z.eqb_neq in Ez. rewrite IH, mark_cell_spec by done. naive_solver.
  - rewrite IH by done. naive_solver.
Qed.

(** C8: the conflict detector marks cell [i] exactly when [i] holds a
    number and another cell of its row, column or block holds the same
    number; so two cells of one unit holding the same number are both
    marked. *)
Theorem updateConflicts_spec (st : list Z) (i : nat) :
  (i ∈ updateConflicts st ↔
     i < 81 ∧ ∃ v, st !! i = Some v ∧ v ≠ 0%Z ∧
       ∃ j, j < 81 ∧ j ≠ i ∧ same_unit i j ∧ st !! j = Some v) ∧
  (∀ j, duplicate st i j → i ∈ updateConflicts st ∧ j ∈ updateConflicts st).
Proof.
  assert (∀ i, i ∈ updateConflicts st ↔
     i < 81 ∧ ∃ v, st !! i = Some v ∧ v ≠ 0%Z ∧
       ∃ j, j < 81 ∧ j ≠ i ∧ same_unit i j ∧ st !! j = Some v) as Hspec.
  { intros k. unfold updateConflicts. rewrite mark_cells_spec.
    - rewrite elem_of_seq. set_solver by lia.
    - intros k' Hk'%elem_of_seq. lia. }
  split; [apply Hspec|].
  intros j (Hi & Hj & Hne & Hu & v & Hv & Ei & Ej). rewrite !Hspec. split.
  - split; [done|]. exists v. split_and!; [done..|]. exists j. split_and!; done.
  - split; [done|]. exists v. split_and!; [done..|]. exists i.
    split_and!; [done | done | by apply same_unit_sym | done].
Qed.

(** ** The play session *)

Ltac split_inv := split; [|split; [|split; [|split]]].

Lemma checkWin_fields (s : session) :
  solution (checkWin s) = solution s ∧ state (checkWin s) = state s ∧
  prefilled (checkWin s) = prefilled s ∧ selected (checkWin s) = selected s ∧
  mistakes (checkWin s) = mistakes s ∧ history (checkWin s) = history s.
Proof. unfold checkWin. by destruct (isSolved s). Qed.

Lemma session_inv_status (msg : string) (s : session) :
  session_inv s → session_inv (status msg s).
Proof. done. Qed.

Lemma session_inv_checkWin (s : session) : session_inv s → session_inv (checkWin s).
Proof. unfold checkWin. by destruct (isSolved s). Qed.

(** Writing one cell that is not locked, with or without a new entry for
    that cell on the history, keeps the invariant. *)
Lemma session_inv_write (s : session) (idx : nat) (v : Z) (sel : option nat)
    (m : nat) (h : list (nat * Z)) (cf : gset nat) (msg : string) :
  session_inv s → idx < 81 → is_prefilled s idx = false →
  (∀ i, sel = Some i → i < 81) →
  (∀ e, e ∈ h → e ∈ history s ∨ e.1 = idx) →
  session_inv
    {| solution := solution s; state := <[idx:=v]> (state s);
       prefilled := prefilled s; selected := sel; mistakes := m;
       history := h; conflicts := cf; statusMsg := msg |}.
Proof.
  intros ((Hl1 & Hl2 & Hl3) & Hsol & Hgiven & Hhist & Hsel) Hidx Hfree Hsel' Hh.
  split_inv; cbn [solution state prefilled selected history]; [|done| | |done].
  - split_and!; cbn [solution state prefilled]; [done | | done].
    by rewrite length_insert.
  - intros i Hi. change (is_prefilled s i = true) in Hi.
    rewrite list_lookup_insert_ne by (intros ->; congruence).
    by apply Hgiven.
  - intros e [He| ->]%Hh; [by apply Hhist | done].
Qed.

Lemma incorrect_spec (s : session) (i : nat) :
  i ∈ incorrect s ↔
  i < 81 ∧ (state s !! i = Some 0%Z ∨ state s !! i ≠ solution s !! i).
Proof.
  unfold incorrect. rewrite list_elem_of_filter, elem_of_seq. intuition lia.
Qed.

(** The cell [giveHint] picks is one of the collected cells. *)
Lemma hint_choice (l : list nat) (k i0 : nat) :
  l ≠ [] → nth (k mod length l) l i0 ∈ l.
Proof.
  intros Hl. assert (length l ≠ 0) as Hlen by (by destruct l).
  rewrite nth_lookup.
  destruct (lookup_lt_is_Some_2 l (k mod length l)) as [x Hx]; [lia|].
  rewrite Hx. simpl. by eapply list_elem_of_lookup_2.
Qed.

Lemma is_prefilled_insert_false (idx i : nat) (b : list bool) :
  match <[idx:=false]> b !! i with Some x => x | None => false end = true →
  i ≠ idx ∧ match b !! i with Some x => x | None => false end = true.
Proof.
  destruct (decide (i = idx)) as [->|Hne].
  - destruct (decide (idx < length b)).
    + by rewrite list_lookup_insert_eq.
    + rewrite list_insert_ge by lia. rewrite lookup_ge_None_2 by lia. done.
  - rewrite list_lookup_insert_ne by done. done.
Qed.

Lemma session_inv_undo (s : session) : session_inv s → session_inv (undo s).
Proof.
  intros Hinv. unfold undo. destruct (history s) as [|[idx prev] h] eqn:Eh; [done|].
  apply session_inv_status. unfold render. cbn [solution state prefilled selected
    mistakes history conflicts statusMsg].
  destruct Hinv as (Hwf & Hsol & Hgiven & Hhist & Hsel).
  destruct (Hhist (idx, prev)) as [Hfree Hidx]; [rewrite Eh; left|].
  apply session_inv_write; [by split_and! | done | done | done |].
  intros e He. left. rewrite Eh. by right.
Qed.

Lemma session_inv_giveHint (k : nat) (s : session) :
  session_inv s → session_inv (giveHint k s).
Proof.
  intros Hinv. unfold giveHint. destruct (incorrect s) as [|i0 l] eqn:El; [done|].
  apply session_inv_status, session_inv_checkWin. unfold render.
  cbn [solution state prefilled selected mistakes history conflicts statusMsg].
  set (idx := nth _ _ _).
  assert (idx ∈ incorrect s) as Hidx.
  { rewrite El. apply hint_choice. done. }
  apply incorrect_spec in Hidx as [Hidx _].
  destruct Hinv as ((Hl1 & Hl2 & Hl3) & Hsol & Hgiven & Hhist & Hsel).
  split_inv; cbn [solution state prefilled selected history]; [|done| | |done].
  - split_and!; cbn [solution state prefilled]; [done|..]; by rewrite length_insert.
  - intros i [Hne Hi]%is_prefilled_insert_false.
    rewrite list_lookup_insert_ne by done. by apply Hgiven.
  - unfold is_prefilled. cbn [prefilled].
    intros e [->|He]%elem_of_cons.
    + cbn [fst]. rewrite list_lookup_insert_eq by lia. done.
    + destruct (Hhist e He) as [Hfree He1]. split; [|done].
      destruct (decide (e.1 = idx)) as [->|Hne].
      * rewrite list_lookup_insert_eq by lia. done.
      * rewrite list_lookup_insert_ne by done. done.
Qed.

Lemma session_inv_reveal (s : session) : session_inv s → session_inv (revealSolution s).
Proof.
  intros ((Hl1 & Hl2 & Hl3) & Hsol & Hgiven & Hhist & Hsel).
  unfold revealSolution. apply session_inv_status. unfold render.
  split_inv; cbn [solution state prefilled selected history]; [|done..].
  by split_and!.
Qed.

Lemma session_inv_newPuzzle (removals : Z) (r : rand) (s : session) :
  (∀ i, selected s = Some i → i < 81) →
  ∃ s', newPuzzle removals r s = Done s' ∧ session_inv s'.
Proof.
  intros Hsel. unfold newPuzzle.
  destruct (generateSolved_spec r []) as (r1 & a & -> & Ha).
  destruct (makePuzzle_spec 0 removals r1 [a] a eq_refl)
    as (r2 & σ2 & p & Hrun & Hp & [Hlen He] & _ & _ & _).
  cbn [length app] in Hrun, Hp |- *. rewrite Hrun.
  rewrite (list_lookup_total_correct _ _ _ Hp).
  eexists. split; [done|]. apply session_inv_status. unfold render.
  change ([a] !!! 0) with a. destruct Ha as (Hla & Hv & Hnd).
  split_inv; cbn [solution state prefilled selected history]; [|by split_and!| | |done].
  - split_and!; cbn [solution state prefilled]; [done | congruence |].
    rewrite length_fmap. congruence.
  - unfold is_prefilled. cbn [prefilled]. intros i. rewrite list_lookup_fmap.
    destruct (p !! i) as [v|] eqn:E; [|done]. simpl.
    intros Hnz%negb_true_iff%Z.eqb_neq.
    destruct (He i) as [Hi|Hi]; congruence.
  - by intros e ?%elem_of_nil.
Qed.

Lemma session_inv_step (a : action) (s s' : session) :
  session_inv s → action_ok a → step a s = Done s' → session_inv s'.
Proof.
  intros Hinv Hok Hstep. pose proof Hinv as (Hwf & Hsol & Hgiven & Hhist & Hsel).
  destruct a as [i|idx num|idx|n|focused n|focused d| |k| |removals r];
    simpl in Hok, Hstep; try (injection Hstep as <-).
  - split_inv; [done..|]. by intros ? [= <-].
  - unfold cell_input. destruct (is_prefilled s idx) eqn:Hfree; [done|].
    apply session_inv_checkWin. destruct Hok as [Hidx _].
    apply session_inv_write; [done..|].
    intros e. case_decide; [intros [->|?]%elem_of_cons|]; auto.
  - unfold cell_keydown. destruct (is_prefilled s idx) eqn:Hfree; [done|].
    apply session_inv_write; [done..|].
    intros e [->|?]%elem_of_cons; auto.
  - unfold numpad_click. destruct (selected s) as [idx|] eqn:Es; [|done].
    destruct (is_prefilled s idx) eqn:Hfree; [done|].
    apply session_inv_checkWin.
    apply session_inv_write; [done | by apply Hsel | done | exact Hsel |].
    intros e [->|?]%elem_of_cons; auto.
  - unfold key_digit. destruct focused; [done|].
    destruct (selected s) as [idx|] eqn:Es; [|done].
    destruct (is_prefilled s idx) eqn:Hfree; [done|].
    apply session_inv_checkWin.
    apply session_inv_write; [done | by apply Hsel | done | exact Hsel |].
    intros e [->|?]%elem_of_cons; auto.
  - unfold key_arrow. destruct focused; [done|].
    destruct (selected s) as [sel|] eqn:Es; [|done].
    destruct (_ && _) eqn:E; [|done].
    split_inv; [done..|]. cbn [selected]. intros i [= <-]. lia.
  - by apply session_inv_undo.
  - by apply session_inv_giveHint.
  - by apply session_inv_reveal.
  - destruct (session_inv_newPuzzle removals r s Hsel) as (s1 & Hs1 & Hinv1).
    congruence.
Qed.

Lemma reachable_inv (s : session) : reachable s → session_inv s.
Proof.
  induction 1 as [removals r s Hnew|a s s' _ IH Hok Hstep].
  - destruct (session_inv_newPuzzle removals r initial) as (s1 & Hs1 & Hinv1);
      [done | congruence].
  - by eapply session_inv_step.
Qed.

Lemma demo_reachable : reachable demo.
Proof. apply (reach_load 1 r0). by vm_compute. Qed.

Lemma demo_typed_reachable : reachable demo_typed.
Proof.
  apply (reach_step (Input 23 5) demo); [apply demo_reachable | |done].
  simpl. lia.
Qed.

(** C5: in every session reachable from [newPuzzle] through the handlers,
    a locked cell shows the number of the solution, and the handlers that
    edit a cell leave a locked cell alone: the input and key handlers change
    nothing at all, the number pad only the status line. *)
Theorem given_cells_locked (s : session) (i : nat) :
  reachable s → is_prefilled s i = true →
  state s !! i = solution s !! i ∧
  (∀ v, cell_input i v s = s) ∧
  cell_keydown i s = s ∧
  (selected s = Some i →
   ∀ n, (∀ focused, key_digit focused n s = s) ∧
        numpad_click n s = status "Cell is locked" s ∧
        state (numpad_click n s) = state s).
Proof.
  intros Hreach Hlocked.
  destruct (reachable_inv s Hreach) as (_ & _ & Hgiven & _).
  split_and!.
  - by apply Hgiven.
  - intros v. unfold cell_input. by rewrite Hlocked.
  - unfold cell_keydown. by rewrite Hlocked.
  - intros Hsel n. unfold key_digit, numpad_click. rewrite Hsel, Hlocked.
    split; [by intros []|done].
Qed.

Lemma given_cells_locked_witness :
  state demo !! 0 = solution demo !! 0 ∧
  (∀ v, cell_input 0 v demo = demo) ∧
  cell_keydown 0 demo = demo ∧
  (selected demo = Some 0 →
   ∀ n, (∀ focused, key_digit focused n demo = demo) ∧
        numpad_click n demo = status "Cell is locked" demo ∧
        state (numpad_click n demo) = state demo).
Proof.
  apply (given_cells_locked demo 0); [|reflexivity].
  apply (reach_load 1 r0). vm_compute. reflexivity.
Defined.

(** Which handlers push on the history: the input handler only when the
    value changes, the others every time. *)
Lemma cell_input_history (s : session) (idx : nat) (num : Z) :
  is_prefilled s idx = false →
  history (cell_input idx num s) =
  if decide (state s !!! idx ≠ num) then (idx, state s !!! idx) :: history s
  else history s.
Proof.
  intros Hfree. unfold cell_input. rewrite Hfree.
  set (s1 := Session _ _ _ _ _ _ _ _).
  by destruct (checkWin_fields s1) as (_ & _ & _ & _ & _ & ->).
Qed.

Lemma cell_keydown_history (s : session) (idx : nat) :
  is_prefilled s idx = false →
  history (cell_keydown idx s) = (idx, state s !!! idx) :: history s.
Proof. intros Hfree. unfold cell_keydown. by rewrite Hfree. Qed.

Lemma numpad_click_history (s : session) (idx : nat) (n : Z) :
  selected s = Some idx → is_prefilled s idx = false →
  history (numpad_click n s) = (idx, state s !!! idx) :: history s.
Proof.
  intros Hsel Hfree. unfold numpad_click. rewrite Hsel, Hfree.
  set (s1 := Session _ _ _ _ _ _ _ _).
  by destruct (checkWin_fields s1) as (_ & _ & _ & _ & _ & ->).
Qed.

(** C6, the defect: clearing a free cell that is already empty leaves the
    board as it is and still pushes an entry, and so does the number pad
    when it writes the number the cell already holds; only the input
    handler compares first. *)
Lemma edit_without_change_pushes_history :
  reachable demo ∧
  is_prefilled demo 23 = false ∧ state demo !! 23 = Some 0%Z ∧
  state (cell_keydown 23 demo) = state demo ∧
  history (cell_keydown 23 demo) = (23, 0%Z) :: history demo ∧
  (let s := numpad_click 5 (cell_click 23 demo) in
   state (numpad_click 5 s) = state s ∧
   history (numpad_click 5 s) = (23, 5%Z) :: history s) ∧
  (let s := cell_input 23 5 demo in
   history (cell_input 23 5 s) = history s).
Proof. split; [apply demo_reachable | by vm_compute]. Qed.

(** C7 (as amended): on a cell that is not locked, an edit that changes
    the value of the cell, or any edit made with the number pad or with
    Backspace and Delete, followed at once by [undo()] puts the board and
    the history back as they were,
    does not lower the mistake counter and locks no cell; [undo()] on an
    empty history changes neither board, history, counter nor locks and
    says "Nothing to undo". *)
Theorem edit_undo_roundtrip (s : session) (i : nat) (v : Z) :
  wf_session s → i < 81 → is_prefilled s i = false →
  (state s !!! i ≠ v →
   state (undo (cell_input i v s)) = state s ∧
   state (undo (cell_input i v s)) !! i = state s !! i ∧
   history (undo (cell_input i v s)) = history s ∧
   mistakes s ≤ mistakes (undo (cell_input i v s)) ∧
   prefilled (undo (cell_input i v s)) = prefilled s) ∧
  (selected s = Some i →
   state (undo (numpad_click v s)) = state s ∧
   history (undo (numpad_click v s)) = history s ∧
   mistakes s ≤ mistakes (undo (numpad_click v s)) ∧
   prefilled (undo (numpad_click v s)) = prefilled s) ∧
  (state (undo (cell_keydown i s)) = state s ∧
   history (undo (cell_keydown i s)) = history s ∧
   mistakes (undo (cell_keydown i s)) = mistakes s ∧
   prefilled (undo (cell_keydown i s)) = prefilled s) ∧
  (history s = [] →
   state (undo s) = state s ∧ history (undo s) = [] ∧
   mistakes (undo s) = mistakes s ∧ prefilled (undo s) = prefilled s ∧
   statusMsg (undo s) = "Nothing to undo").
Proof.
  intros Hwf Hi Hfree. split; [|split; [|split]].
  - intros Hne. unfold cell_input. rewrite Hfree.
    rewrite decide_True by done. set (s1 := Session _ _ _ _ _ _ _ _).
    destruct (checkWin_fields s1) as (_ & Est & Epre & _ & Emis & Ehist).
    unfold undo. rewrite Ehist. cbn [history s1].
    cbn [status render state history mistakes prefilled].
    rewrite Est, Epre, Emis. cbn [state prefilled mistakes s1].
    rewrite restore_write. split_and!; [done | done | done | | done].
    destruct (_ && _); lia.
  - intros Hsel. unfold numpad_click. rewrite Hsel, Hfree.
    set (s1 := Session _ _ _ _ _ _ _ _).
    destruct (checkWin_fields s1) as (_ & Est & Epre & _ & Emis & Ehist).
    unfold undo. rewrite Ehist. cbn [history s1].
    cbn [status render state history mistakes prefilled].
    rewrite Est, Epre, Emis. cbn [state prefilled mistakes s1].
    rewrite restore_write. split_and!; [done | done | | done].
    destruct (negb _); lia.
  - unfold cell_keydown. rewrite Hfree. unfold undo.
    cbn [status render state history mistakes prefilled].
    by rewrite restore_write.
  - intros Hh. unfold undo. by rewrite Hh.
Qed.

Lemma edit_undo_roundtrip_witness :
  (state demo !!! 23 ≠ 5%Z →
   state (undo (cell_input 23 5 demo)) = state demo ∧
   state (undo (cell_input 23 5 demo)) !! 23 = state demo !! 23 ∧
   history (undo (cell_input 23 5 demo)) = history demo ∧
   mistakes demo ≤ mistakes (undo (cell_input 23 5 demo)) ∧
   prefilled (undo (cell_input 23 5 demo)) = prefilled demo) ∧
  (selected demo = Some 23 →
   state (undo (numpad_click 5 demo)) = state demo ∧
   history (undo (numpad_click 5 demo)) = history demo ∧
   mistakes demo ≤ mistakes (undo (numpad_click 5 demo)) ∧
   prefilled (undo (numpad_click 5 demo)) = prefilled demo) ∧
  (state (undo (cell_keydown 23 demo)) = state demo ∧
   history (undo (cell_keydown 23 demo)) = history demo ∧
   mistakes (undo (cell_keydown 23 demo)) = mistakes demo ∧
   prefilled (undo (cell_keydown 23 demo)) = prefilled demo) ∧
  (history demo = [] →
   state (undo demo) = state demo ∧ history (undo demo) = [] ∧
   mistakes (undo demo) = mistakes demo ∧ prefilled (undo demo) = prefilled demo ∧
   statusMsg (undo demo) = "Nothing to undo").
Proof.
  apply (edit_undo_roundtrip demo 23 5); [|lia|reflexivity].
  repeat split.
Defined.

(** C7 as stated fails: typing into a free cell the number it already
    holds pushes nothing, and the [undo()] that follows takes back the edit
    before it; cell 23 held 5 and holds 0 afterwards. *)
Lemma undo_after_same_value_edit :
  reachable demo_typed ∧
  wf_session demo_typed ∧ is_prefilled demo_typed 23 = false ∧
  state demo_typed !! 23 = Some 5%Z ∧
  state (undo (cell_input 23 5 demo_typed)) !! 23 = Some 0%Z ∧
  state (undo (cell_input 23 5 demo_typed)) !! 23 ≠ state demo_typed !! 23.
Proof.
  split; [apply demo_typed_reachable|]. split_and!; [by vm_compute..|].
  by vm_compute.
Qed.
Lemma every_from_true (sol st : list Z) (i : nat) :
  (∀ j v, st !! j = Some v → v ≠ 0%Z ∧ sol !! (i + j) = Some v) →
  every_from sol i st = true.
Proof.
  revert i. induction st as [|v st IH]; intros i H; [done|]. cbn [every_from].
  destruct (H 0 v eq_refl) as [Hv Hs]. rewrite Nat.add_0_r in Hs.
  apply Z.eqb_neq in Hv. apply cell_is_spec in Hs. rewrite Hv, Hs. simpl.
  apply IH. intros j w Hj. specialize (H (S j) w Hj).
  by rewrite Nat.add_succ_r in H.
Qed.

Lemma isSolved_checkWin (s : session) : isSolved (checkWin s) = isSolved s.
Proof. unfold checkWin. by destruct (isSolved s) eqn:E. Qed.

(** C9: whenever the three boards have 81 cells, reached by play or not:
    if some cell is empty or differs from the solution, [giveHint] picks such
    a cell, pushes its old value on the history, writes the solution into it
    and clears its lock, locked before or not, touching no other cell, no
    other lock and not the mistake counter; if there is no such cell it
    changes neither board, history, locks nor counter.  When exactly one cell
    is empty, every other cell shows its solution and the solution has no
    empty cell, the hint fills that cell and the puzzle is solved; the
    solution of a session reached by play has no empty cell. *)
Theorem giveHint_spec (s : session) (k : nat) :
  wf_session s →
  ((∃ i, i < 81 ∧ (state s !! i = Some 0%Z ∨ state s !! i ≠ solution s !! i)) →
   ∃ idx, idx < 81 ∧
     (state s !! idx = Some 0%Z ∨ state s !! idx ≠ solution s !! idx) ∧
     history (giveHint k s) = (idx, state s !!! idx) :: history s ∧
     state (giveHint k s) = <[idx:=solution s !!! idx]> (state s) ∧
     state (giveHint k s) !! idx = solution s !! idx ∧
     prefilled (giveHint k s) = <[idx:=false]> (prefilled s) ∧
     is_prefilled (giveHint k s) idx = false ∧
     (∀ j, j ≠ idx → is_prefilled (giveHint k s) j = is_prefilled s j) ∧
     mistakes (giveHint k s) = mistakes s) ∧
  ((∀ i, i < 81 → state s !! i ≠ Some 0%Z ∧ state s !! i = solution s !! i) →
   state (giveHint k s) = state s ∧ history (giveHint k s) = history s ∧
   prefilled (giveHint k s) = prefilled s ∧ mistakes (giveHint k s) = mistakes s) ∧
  (∀ i, i < 81 → state s !! i = Some 0%Z →
   (∀ j, j < 81 → j ≠ i → state s !! j = solution s !! j) →
   full (solution s) →
   state (giveHint k s) !! i = solution s !! i ∧ isSolved (giveHint k s) = true) ∧
  (reachable s → full (solution s)).
Proof.
  intros (Hl1 & Hl2 & Hl3).
  assert (incorrect s ≠ [] →
    ∃ idx, idx ∈ incorrect s ∧
      giveHint k s =
      status "Hint revealed"
        (checkWin
           (render
              {| solution := solution s;
                 state := <[idx:=solution s !!! idx]> (state s);
                 prefilled := <[idx:=false]> (prefilled s);
                 selected := selected s; mistakes := mistakes s;
                 history := (idx, state s !!! idx) :: history s;
                 conflicts := conflicts s; statusMsg := statusMsg s |}))) as Hrun.
  { intros Hne. unfold giveHint. destruct (incorrect s) as [|i0 l] eqn:El; [done|].
    eexists. split; [|done]. by apply hint_choice. }
  split_and!.
  - intros (i & Hi & Hbad).
    destruct Hrun as (idx & Hidx & ->).
    { intros Hnil. assert (i ∈ incorrect s) as Hin by (by apply incorrect_spec).
      rewrite Hnil in Hin. by apply elem_of_nil in Hin. }
    apply incorrect_spec in Hidx as [Hidx Hwhy].
    set (s1 := render _).
    destruct (checkWin_fields s1) as (_ & Est & Epre & _ & Emis & Ehist).
    exists idx. unfold is_prefilled. cbn [status state history prefilled mistakes].
    rewrite Est, Epre, Emis, Ehist. cbn [s1 render state history prefilled mistakes].
    split_and!; [done..| | done | | | done].
    + rewrite list_lookup_insert_eq by lia.
      symmetry. apply list_lookup_lookup_total_lt. lia.
    + by rewrite list_lookup_insert_eq by lia.
    + intros j Hj. by rewrite list_lookup_insert_ne.
  - intros Hgood. unfold giveHint.
    destruct (incorrect s) as [|i0 l] eqn:El; [done|].
    assert (i0 ∈ incorrect s) as [Hi0 Hbad]%incorrect_spec by (rewrite El; left).
    destruct (Hgood i0 Hi0). tauto.
  - intros i Hi Hempty Hothers Hfull.
    destruct Hrun as (idx & Hidx & ->).
    { intros Hnil. assert (i ∈ incorrect s) as Hin by (apply incorrect_spec; auto).
      rewrite Hnil in Hin. by apply elem_of_nil in Hin. }
    apply incorrect_spec in Hidx as [Hidx Hwhy].
    assert (idx = i) as ->.
    { destruct (decide (idx = i)) as [|Hne]; [done|].
      pose proof (Hothers idx Hidx Hne) as Heq. destruct Hwhy as [Hz|]; [|done].
      rewrite Heq in Hz. by destruct (Hfull idx Hidx). }
    set (s1 := render _).
    destruct (checkWin_fields s1) as (Esol & Est & _).
    assert (state s1 = <[i:=solution s !!! i]> (state s)) as Es1 by done.
    assert (∀ j, j < 81 → state s1 !! j = solution s !! j) as Hall.
    { intros j Hj. rewrite Es1. destruct (decide (j = i)) as [->|Hne].
      - rewrite list_lookup_insert_eq by lia.
        symmetry. apply list_lookup_lookup_total_lt. lia.
      - rewrite list_lookup_insert_ne by done. by apply Hothers. }
    split.
    + cbn [status state]. rewrite Est. by apply Hall.
    + change (isSolved (status "Hint revealed" (checkWin s1)))
        with (isSolved (checkWin s1)).
      rewrite isSolved_checkWin. unfold isSolved. apply every_from_true.
      intros j v Hj. change (solution s1) with (solution s).
      assert (j < 81) as Hj81.
      { apply lookup_lt_Some in Hj. rewrite Es1, length_insert in Hj. lia. }
      rewrite Hall in Hj by done. split; [|done].
      intros ->. by destruct (Hfull j Hj81).
  - intros Hreach. destruct (reachable_inv s Hreach) as (_ & Hsol & _).
    by apply complete_board_full.
Qed.

Lemma giveHint_spec_witness :
  ((∃ i, i < 81 ∧ (state locked_gap !! i = Some 0%Z ∨
                   state locked_gap !! i ≠ solution locked_gap !! i)) →
   ∃ idx, idx < 81 ∧
     (state locked_gap !! idx = Some 0%Z ∨
      state locked_gap !! idx ≠ solution locked_gap !! idx) ∧
     history (giveHint 7 locked_gap) =
       (idx, state locked_gap !!! idx) :: history locked_gap ∧
     state (giveHint 7 locked_gap) =
       <[idx:=solution locked_gap !!! idx]> (state locked_gap) ∧
     state (giveHint 7 locked_gap) !! idx = solution locked_gap !! idx ∧
     prefilled (giveHint 7 locked_gap) = <[idx:=false]> (prefilled locked_gap) ∧
     is_prefilled (giveHint 7 locked_gap) idx = false ∧
     (∀ j, j ≠ idx →
        is_prefilled (giveHint 7 locked_gap) j = is_prefilled locked_gap j) ∧
     mistakes (giveHint 7 locked_gap) = mistakes locked_gap) ∧
  ((∀ i, i < 81 → state locked_gap !! i ≠ Some 0%Z ∧
                  state locked_gap !! i = solution locked_gap !! i) →
   state (giveHint 7 locked_gap) = state locked_gap ∧
   history (giveHint 7 locked_gap) = history locked_gap ∧
   prefilled (giveHint 7 locked_gap) = prefilled locked_gap ∧
   mistakes (giveHint 7 locked_gap) = mistakes locked_gap) ∧
  (∀ i, i < 81 → state locked_gap !! i = Some 0%Z →
   (∀ j, j < 81 → j ≠ i → state locked_gap !! j = solution locked_gap !! j) →
   full (solution locked_gap) →
   state (giveHint 7 locked_gap) !! i = solution locked_gap !! i ∧
   isSolved (giveHint 7 locked_gap) = true) ∧
  (reachable locked_gap → full (solution locked_gap)).
Proof.
  apply (giveHint_spec locked_gap 7). by vm_compute.
Defined.

(** ** More on the search *)

Lemma findEmpty_from_first (g : list Z) (n s pos : nat) :
  findEmpty_from g (seq s n) = Some pos →
  ∀ i, s ≤ i → i < pos → g !! i ≠ Some 0%Z.
Proof.
  revert s. induction n as [|n IH]; intros s; simpl; [done|].
  destruct (cell_is g s 0) eqn:E.
  - intros [= <-] i Hs Hi. lia.
  - apply cell_is_false in E. intros Hf i Hs Hi.
    destruct (decide (i = s)) as [->|Hne]; [done|].
    apply (IH (S s) Hf). lia. done.
Qed.

(** X1: [findEmpty] returns the first empty cell of the board, and [-1]
    exactly when none of the 81 cells is empty. *)
Theorem findEmpty_first_empty (g : list Z) :
  (∀ pos, findEmpty g = Some pos ↔
     pos < 81 ∧ g !! pos = Some 0%Z ∧ ∀ i, i < pos → g !! i ≠ Some 0%Z) ∧
  (findEmpty g = None ↔ full g).
Proof.
  assert (findEmpty g = None ↔ full g) as Hnone.
  { split; [apply findEmpty_None | apply full_findEmpty]. }
  split; [|done]. intros pos. split.
  - intros H. destruct (findEmpty_Some g pos H) as [H1 H2].
    split_and!; [done..|]. intros i Hi.
    eapply (findEmpty_from_first g 81 0); [exact H | lia | done].
  - intros (Hpos & Hz & Hfirst).
    destruct (findEmpty g) as [p|] eqn:E.
    + destruct (findEmpty_Some g p E) as [H1 H2].
      pose proof (findEmpty_from_first g 81 0 p E) as Hp.
      f_equal. destruct (Nat.lt_trichotomy p pos) as [Hlt|[->|Hgt]]; [|done|].
      * by destruct (Hfirst p Hlt).
      * destruct (Hp pos); [lia | done | done].
    + apply findEmpty_None in E. by destruct (E pos Hpos).
Qed.

Lemma completes_insert (g sol : list Z) (pos : nat) (n : Z) :
  completes g sol → sol !! pos = Some n → completes (<[pos:=n]> g) sol.
Proof.
  intros [Hc Hp] Hsol. split; [done|]. intros i v Hi Hv.
  destruct (decide (i = pos)) as [->|Hne].
  - destruct (decide (pos < length g)) as [Hlt|Hge].
    + rewrite list_lookup_insert_eq in Hi by done. congruence.
    + rewrite list_insert_ge in Hi by lia. by apply Hp.
  - rewrite list_lookup_insert_ne in Hi by done. by apply Hp.
Qed.

(** A candidate that [valid] rejects at an empty cell is in no completion. *)
Lemma invalid_no_completion (g sol : list Z) (pos : nat) (n : Z) :
  pos < 81 → g !! pos = Some 0%Z → (1 ≤ n ≤ 9)%Z →
  valid g pos n = false → completes g sol → sol !! pos ≠ Some n.
Proof.
  intros Hpos Hz Hn Hv [(_ & _ & Hnd) Hp] Hsol.
  apply valid_false in Hv as (k & Hk & Hu & Hkn); [|done].
  assert (k ≠ pos) by (intros ->; rewrite Hz in Hkn; injection Hkn; lia).
  apply (Hnd pos k). split_and!; [done..|].
  exists n. split_and!; [lia | done | apply Hp; [done | lia]].
Qed.

Lemma backtrack_loop_complete (rec : list Z → outcome (bool * list Z))
    (pos : nat) (ns : list Z) (g g' : list Z) :
  (∀ a, search_post a (rec a)) →
  (∀ a a', rec a = Done (false, a') → ∀ sol, ¬ completes a sol) →
  pos < 81 → g !! pos = Some 0%Z → (∀ n, n ∈ ns → (1 ≤ n ≤ 9)%Z) →
  backtrack_loop rec pos ns g = Done (false, g') →
  ∀ sol n, n ∈ ns → completes g sol → sol !! pos ≠ Some n.
Proof.
  intros Hpost Hrec Hpos Hz. induction ns as [|m ns IH]; intros Hns Hrun sol n Hn Hsol.
  { by apply elem_of_nil in Hn. }
  assert (∀ n, n ∈ ns → (1 ≤ n ≤ 9)%Z) as Hns' by (intros k Hk; apply Hns; by right).
  cbn [backtrack_loop] in Hrun. destruct (valid g pos m) eqn:Hv.
  - pose proof (Hpost (<[pos:=m]> g)) as Hp. pose proof (Hrec (<[pos:=m]> g)) as Hr.
    destruct (rec (<[pos:=m]> g)) as [[[] a']|]; [done| |done].
    simpl in Hp. subst a'.
    rewrite list_insert_insert_eq, list_insert_id in Hrun by done.
    apply elem_of_cons in Hn as [->|Hn]; [|by eapply IH].
    intros Hm. apply (Hr _ eq_refl sol). by apply completes_insert.
  - apply elem_of_cons in Hn as [->|Hn]; [|by eapply IH].
    apply invalid_no_completion with g; [done | done | apply Hns; left | done | done].
Qed.

(** The search gives up only on boards without completion. *)
Lemma backtrack_complete (fuel : nat) (g g' : list Z) :
  backtrack fuel g = Done (false, g') → ∀ sol, ¬ completes g sol.
Proof.
  revert g g'. induction fuel as [|fuel IH]; intros g g'; rewrite backtrack_eq.
  - by destruct (findEmpty g).
  - destruct (findEmpty g) as [pos|] eqn:E; [|done].
    apply findEmpty_Some in E as [Hpos Hz]. intros Hrun sol Hsol.
    pose proof Hsol as [(_ & Hv & _) _]. destruct (Hv pos Hpos) as (v & Hsv & Hr).
    eapply (backtrack_loop_complete (backtrack fuel) pos digits g g');
      [apply backtrack_post | exact IH | done | done | | done | | done | done].
    + intros n. apply digits_range.
    + by apply digits_range.
Qed.

(** X2: [solve] is a complete search: it returns [null] only for a board
    that no finished board extends, so it succeeds on every board that has
    a completion. *)
Theorem solve_finds_completion (σ : store) (grid : loc) (a : list Z) :
  σ !! grid = Some a →
  (∀ σ', solve grid σ = Done (None, σ') → ∀ sol, ¬ completes a sol) ∧
  ((∃ sol, completes a sol) → ∃ g σ', solve grid σ = Done (Some g, σ')).
Proof.
  intros Hg. destruct (solve_eq σ grid a Hg) as (b & a' & Hb & Hs).
  rewrite Hs. destruct b.
  - split; [done | eauto].
  - split.
    + intros _ _. by eapply backtrack_complete.
    + intros [sol Hsol]. by destruct (backtrack_complete 81 a a' Hb sol).
Qed.

Lemma reference_completes_itself : completes reference reference.
Proof. split; [apply reference_complete | by intros i v]. Qed.

Lemma solve_finds_completion_witness :
  (∀ σ', solve 0 [<[0:=0%Z]> reference] = Done (None, σ') →
     ∀ sol, ¬ completes (<[0:=0%Z]> reference) sol) ∧
  ((∃ sol, completes (<[0:=0%Z]> reference) sol) →
   ∃ g σ', solve 0 [<[0:=0%Z]> reference] = Done (Some g, σ')).
Proof. apply (solve_finds_completion [<[0:=0%Z]> reference] 0). reflexivity. Defined.

Lemma fills_keeps (g g' : list Z) (j : nat) :
  fills g g' → g !! j ≠ Some 0%Z → g' !! j = g !! j.
Proof. intros [_ H] Hj. destruct (H j) as [E|[E _]]; [done | congruence]. Qed.

Lemma full_completes_eq (g sol : list Z) :
  length g = 81 → full g → completes g sol → g = sol.
Proof.
  intros Hlen Hfull [(Hl & _) Hp]. apply list_eq. intros i.
  destruct (decide (i < 81)) as [Hi|Hi].
  - destruct (lookup_lt_is_Some_2 g i) as [w Hw]; [lia|].
    rewrite Hw. symmetry. apply Hp; [done|].
    intros ->. by destruct (Hfull i Hi).
  - rewrite !lookup_ge_None_2 by lia. done.
Qed.

Lemma backtrack_loop_least (rec : list Z → outcome (bool * list Z))
    (pos : nat) (ns : list Z) (g g' sol : list Z) (v : Z) :
  (∀ a, search_post a (rec a)) →
  (∀ a a', rec a = Done (false, a') → ∀ sol, ¬ completes a sol) →
  (∀ a a', length a = 81 → rec a = Done (true, a') →
     ∀ sol, completes a sol → a' = sol ∨ lex_before a' sol) →
  pos < 81 → length g = 81 → g !! pos = Some 0%Z →
  (∀ j, j < pos → g !! j ≠ Some 0%Z) →
  StronglySorted Z.lt ns → (∀ n, n ∈ ns → (1 ≤ n ≤ 9)%Z) →
  backtrack_loop rec pos ns g = Done (true, g') →
  completes g sol → sol !! pos = Some v → v ∈ ns →
  g' = sol ∨ lex_before g' sol.
Proof.
  intros Hpost Hrec Hleast Hpos Hlen Hz Hfirst.
  induction ns as [|m ns IH]; intros Hsorted Hns Hrun Hsol Hv Hin.
  { by apply elem_of_nil in Hin. }
  apply StronglySorted_inv in Hsorted as [Hsorted Hlt].
  assert (∀ n, n ∈ ns → (1 ≤ n ≤ 9)%Z) as Hns' by (intros k Hk; apply Hns; by right).
  assert (1 ≤ m ≤ 9)%Z as Hm by (apply Hns; left).
  cbn [backtrack_loop] in Hrun. destruct (valid g pos m) eqn:Hvalid.
  - pose proof (Hpost (<[pos:=m]> g)) as Hp. pose proof (Hrec (<[pos:=m]> g)) as Hr.
    pose proof (Hleast (<[pos:=m]> g)) as Hl.
    destruct (rec (<[pos:=m]> g)) as [[[] a']|]; [| |done].
    + injection Hrun as ->. destruct Hp as (Hf & _ & _).
      apply elem_of_cons in Hin as [->|Hin].
      * apply Hl; [by rewrite length_insert | done | by apply completes_insert].
      * right. exists pos, m, v. split_and!; [done | | | done |].
        -- intros j Hj. rewrite (fills_keeps _ _ j Hf);
             rewrite list_lookup_insert_ne by lia; [|by apply Hfirst].
           destruct (lookup_lt_is_Some_2 g j) as [w Hw]; [lia|].
           rewrite Hw. symmetry. apply Hsol; [done|].
           intros ->. by destruct (Hfirst j Hj).
        -- rewrite (fills_keeps _ _ pos Hf); rewrite list_lookup_insert_eq by lia;
             [done | intros [= ->]; lia].
        -- rewrite Forall_forall in Hlt. by apply Hlt.
    + simpl in Hp. subst a'.
      rewrite list_insert_insert_eq, list_insert_id in Hrun by done.
      apply elem_of_cons in Hin as [->|Hin]; [|by apply IH].
      destruct (Hr _ eq_refl sol). by apply completes_insert.
  - apply elem_of_cons in Hin as [->|Hin]; [|by apply IH].
    by destruct (invalid_no_completion g sol pos m).
Qed.

Lemma digits_sorted : StronglySorted Z.lt digits.
Proof. unfold digits. repeat (constructor; [|repeat constructor; lia]). constructor. Qed.

(** Candidates are tried in ascending order at the first empty cell, so
    the board found comes first among all completions. *)
Lemma backtrack_least (fuel : nat) (g g' : list Z) :
  length g = 81 → backtrack fuel g = Done (true, g') →
  ∀ sol, completes g sol → g' = sol ∨ lex_before g' sol.
Proof.
  revert g g'. induction fuel as [|fuel IH]; intros g g' Hlen; rewrite backtrack_eq.
  - destruct (findEmpty g) eqn:E; [done|]. intros [= <-] sol Hsol. left.
    apply full_completes_eq; [done | by apply findEmpty_None | done].
  - destruct (findEmpty g) as [pos|] eqn:E.
    + pose proof (findEmpty_from_first g 81 0 pos E) as Hfirst.
      apply findEmpty_Some in E as [Hpos Hz]. intros Hrun sol Hsol.
      pose proof Hsol as [(_ & Hv & _) _]. destruct (Hv pos Hpos) as (v & Hsv & Hr).
      eapply (backtrack_loop_least (backtrack fuel) pos digits g g' sol v);
        [apply backtrack_post | apply backtrack_complete | exact IH | done..
        | | apply digits_sorted | | done | done | done | by apply digits_range].
      * intros j Hj. apply Hfirst; [lia | done].
      * intros n. apply digits_range.
    + intros [= <-] sol Hsol. left.
      apply full_completes_eq; [done | by apply findEmpty_None | done].
Qed.

Lemma backtrack_complete_board (a a' : list Z) :
  length a = 81 → no_duplicates a → (∀ i v, a !! i = Some v → (0 ≤ v ≤ 9)%Z) →
  backtrack 81 a = Done (true, a') → complete_board a'.
Proof.
  intros Hlen Hnd Hrange Hb.
  pose proof (backtrack_post 81 a) as Hp. rewrite Hb in Hp.
  destruct Hp as ([Hlen' Hf] & Hfull & Hd).
  split_and!; [congruence | |].
  - intros i Hi. destruct (lookup_lt_is_Some_2 a' i) as [v Hv]; [lia|].
    exists v. split; [done|].
    destruct (Hf i) as [E|(_ & w & E & Hw)]; [|congruence].
    rewrite Hv in E. symmetry in E. pose proof (Hrange i v E).
    assert (v ≠ 0%Z) by (intros ->; by destruct (Hfull i Hi)). lia.
  - intros i j Hij. by apply (Hnd i j), Hd.
Qed.

(** A board that has a completion holds digits only and repeats none in a
    unit. *)
Lemma completes_input (a sol : list Z) :
  completes a sol →
  no_duplicates a ∧ ∀ i v, a !! i = Some v → (0 ≤ v ≤ 9)%Z.
Proof.
  intros [(Hlen & Hv & Hnd) Hpre]. split.
  - intros i j (Hi & Hj & Hne & Hu & v & Hv0 & Ei & Ej). apply (Hnd i j).
    split_and!; [done..|]. exists v. split_and!; [done | by apply Hpre..].
  - intros i v Hi. destruct (decide (v = 0%Z)) as [->|Hv0]; [lia|].
    pose proof (Hpre i v Hi Hv0) as Hs.
    destruct (Hv i) as (w & Hw & Hr); [apply lookup_lt_Some in Hs; lia|].
    rewrite Hs in Hw. injection Hw as ->. lia.
Qed.

(** X3: when the input of [solve] has a completion, the board [solve]
    returns is one of them, and the first of them reading the 81 cells in
    order: any other completion holds a larger number at the first cell
    where the two differ. *)
Theorem solve_returns_least (σ σ' : store) (grid g : loc) (a : list Z) :
  σ !! grid = Some a → length a = 81 →
  solve grid σ = Done (Some g, σ') →
  ∃ a', σ' !! g = Some a' ∧
    ((∃ sol, completes a sol) → completes a a') ∧
    ∀ sol, completes a sol → a' = sol ∨ lex_before a' sol.
Proof.
  intros Hg Hlen Hrun. destruct (solve_eq σ grid a Hg) as (b & a' & Hb & Hs).
  rewrite Hs in Hrun. destruct b; [|done]. injection Hrun as <- <-.
  exists a'. split_and!; [by apply list_lookup_middle | |].
  - intros [sol [Hnd Hrange]%completes_input]. split.
    + by apply (backtrack_complete_board a).
    + apply fills_preserves.
      pose proof (backtrack_post 81 a) as Hp. rewrite Hb in Hp. by destruct Hp.
  - by apply (backtrack_least 81 a a').
Qed.

Lemma solve_returns_least_witness :
  ∃ a', [<[0:=0%Z]> reference; reference] !! 1 = Some a' ∧
    ((∃ sol, completes (<[0:=0%Z]> reference) sol) →
     completes (<[0:=0%Z]> reference) a') ∧
    ∀ sol, completes (<[0:=0%Z]> reference) sol → a' = sol ∨ lex_before a' sol.
Proof.
  apply (solve_returns_least [<[0:=0%Z]> reference] _ 0 1 (<[0:=0%Z]> reference));
    [reflexivity | reflexivity | by vm_compute].
Defined.

(** X4: a board without empty cell is never searched: [solve] returns a
    fresh copy of it, valid or not; and solving what [solve] returned gives
    that board again. *)
Theorem solve_full_board (σ : store) (grid : loc) (a : list Z) :
  σ !! grid = Some a →
  (full a → solve grid σ = Done (Some (length σ), σ ++ [a])) ∧
  (∀ g σ' a', solve grid σ = Done (Some g, σ') → σ' !! g = Some a' →
     solve g σ' = Done (Some (length σ'), σ' ++ [a'])).
Proof.
  intros Hg.
  assert (∀ (τ : store) l b, τ !! l = Some b → full b →
    solve l τ = Done (Some (length τ), τ ++ [b])) as Hcopy.
  { intros τ l b Hl Hfull. destruct (solve_eq τ l b Hl) as (ok & b' & Hb & ->).
    rewrite backtrack_eq, (full_findEmpty b Hfull) in Hb. by injection Hb as <- <-. }
  split; [by apply Hcopy|].
  intros g σ' a' Hrun Ha'. apply Hcopy; [done|].
  destruct (solve_eq σ grid a Hg) as (ok & b' & Hb & Hs).
  rewrite Hs in Hrun. destruct ok; [|done]. injection Hrun as <- <-.
  rewrite list_lookup_middle in Ha' by done. injection Ha' as <-.
  pose proof (backtrack_post 81 a) as Hp. rewrite Hb in Hp. by destruct Hp as (_ & ? & _).
Qed.

Lemma solve_full_board_witness :
  (full spoiled → solve 0 [spoiled] = Done (Some (length [spoiled]), [spoiled] ++ [spoiled])) ∧
  (∀ g σ' a', solve 0 [spoiled] = Done (Some g, σ') → σ' !! g = Some a' →
     solve g σ' = Done (Some (length σ'), σ' ++ [a'])).
Proof. apply (solve_full_board [spoiled] 0 spoiled). reflexivity. Defined.

(** ** More on the carver *)

Lemma erases_completes (a p : list Z) :
  complete_board a → erases a p → completes p a.
Proof.
  intros Ha [_ He]. split; [done|]. intros i v Hi Hv.
  destruct (He i) as [E|E]; congruence.
Qed.

(** Whatever was erased from a finished board, the search succeeds. *)
Lemma erased_solvable (a p : list Z) :
  complete_board a → erases a p → solvable p.
Proof.
  intros Ha He. destruct (backtrack_total p) as ([] & p' & Hb); [by exists p'|].
  destruct (backtrack_complete 81 p p' Hb a). by apply erases_completes.
Qed.

Lemma erases_no_duplicates (a p : list Z) :
  no_duplicates a → erases a p → no_duplicates p.
Proof.
  intros Hnd [_ He] i j (Hi & Hj & Hne & Hu & v & Hv & Ei & Ej).
  apply (Hnd i j). split_and!; [done..|]. exists v.
  destruct (He i) as [E1|E1], (He j) as [E2|E2]; split_and!; congruence.
Qed.

Lemma in_take {A} (x : A) (n : nat) (l : list A) : x ∈ take n l → x ∈ l.
Proof. intros (i & Hi & _)%elem_of_take. by eapply list_elem_of_lookup_2. Qed.

Lemma zero_cells_cons (i : nat) (ixs : list nat) (a : list Z) :
  zero_cells (i :: ixs) a = zero_cells ixs (<[i:=0%Z]> a).
Proof. done. Qed.

Lemma zero_cells_lookup (ixs : list nat) (a : list Z) (i : nat) :
  i < length a →
  zero_cells ixs a !! i = if decide (i ∈ ixs) then Some 0%Z else a !! i.
Proof.
  revert a. induction ixs as [|k ixs IH]; intros a Hi.
  { rewrite decide_False; [done | apply not_elem_of_nil]. }
  rewrite zero_cells_cons, IH by (by rewrite length_insert).
  destruct (decide (i ∈ ixs)) as [Hin|Hin].
  - rewrite decide_True; [done | by right].
  - destruct (decide (i = k)) as [->|Hne].
    + rewrite decide_True by left. by apply list_lookup_insert_eq.
    + rewrite decide_False by (rewrite elem_of_cons; tauto).
      by apply list_lookup_insert_ne.
Qed.

Lemma count_zeros_erase (l : list Z) (i : nat) (v : Z) :
  l !! i = Some v → v ≠ 0%Z → count_zeros (<[i:=0%Z]> l) = S (count_zeros l).
Proof.
  unfold count_zeros. revert i. induction l as [|x l IH]; intros i; [done|].
  destruct i as [|i]; cbn [insert list_insert lookup list_lookup].
  - intros [= ->] Hv. rewrite (filter_cons_True _ 0%Z) by done.
    by rewrite (filter_cons_False _ v) by done.
  - intros Hi Hv. rewrite !filter_cons. case_decide; cbn [length]; f_equal; by eapply IH.
Qed.

Lemma count_zeros_zero_cells (ixs : list nat) (a : list Z) :
  NoDup ixs → (∀ i, i ∈ ixs → ∃ v, a !! i = Some v ∧ v ≠ 0%Z) →
  count_zeros (zero_cells ixs a) = count_zeros a + length ixs.
Proof.
  revert a. induction ixs as [|k ixs IH]; intros a Hnd Hv; [simpl; lia|].
  apply NoDup_cons in Hnd as [Hk Hnd].
  destruct (Hv k) as (v & Hkv & Hv0); [left|].
  rewrite zero_cells_cons, IH; [|done|].
  - rewrite (count_zeros_erase a k v) by done. simpl. lia.
  - intros i Hi. rewrite list_lookup_insert_ne by (intros ->; done).
    apply Hv. by right.
Qed.

(** On a finished board no removal is ever taken back: the loop empties
    the cells of [order] one by one until [removals] is reached. *)
Lemma makePuzzle_loop_exact (a : list Z) (puzzle : loc) (removals : Z)
    (order : list nat) :
  complete_board a →
  ∀ (removed : Z) (σ : store) (p : list Z),
  σ !! puzzle = Some p → erases a p →
  ∃ σ', makePuzzle_loop puzzle removals order removed σ = Done σ' ∧
    σ' !! puzzle =
      Some (zero_cells (take (Z.to_nat (removals - removed)) order) p).
Proof.
  intros Ha. induction order as [|idx order IH]; intros removed σ p Hp He;
    cbn [makePuzzle_loop].
  { exists σ. by rewrite take_nil. }
  destruct (removed >=? removals)%Z eqn:Hbreak.
  { rewrite Z.geb_leb in Hbreak. apply Z.leb_le in Hbreak.
    exists σ. split; [done|]. by replace (Z.to_nat (removals - removed)) with 0 by lia. }
  rewrite Z.geb_leb in Hbreak. apply Z.leb_gt in Hbreak.
  pose proof (write_lookup σ puzzle idx 0 p Hp) as Hp1.
  assert (erases a (<[idx:=0%Z]> p)) as He1
    by (eapply erases_trans; [exact He | apply erases_insert]).
  destruct (erased_solvable a _ Ha He1) as [a' Ha'].
  destruct (solve_eq _ puzzle _ Hp1) as (b & a'' & Hb & ->).
  rewrite Ha' in Hb. injection Hb as <- <-.
  destruct (IH (removed + 1)%Z (write puzzle idx 0 σ ++ [a']) (<[idx:=0%Z]> p))
    as (σ' & Hrun & Hres); [by apply lookup_app_l_Some | done |].
  exists σ'. split; [done|]. rewrite Hres. f_equal.
  replace (Z.to_nat (removals - removed))
    with (S (Z.to_nat (removals - (removed + 1)))) by lia.
  done.
Qed.

(** What [makePuzzle] does to a finished board. *)
Lemma makePuzzle_carves (solved : loc) (removals : Z) (r : rand) (σ : store)
    (a : list Z) :
  σ !! solved = Some a → complete_board a →
  ∃ σ' p,
    makePuzzle solved removals r σ =
      Done (length σ, (shuffle (seq 0 81) r).2, σ') ∧
    σ' !! length σ = Some p ∧
    p = zero_cells (take (Z.to_nat removals) (shuffle (seq 0 81) r).1) a ∧
    count_zeros p = Z.to_nat (Z.min removals 81) ∧
    (∀ i, p !! i = Some 0%Z ↔ i ∈ take (Z.to_nat removals) (shuffle (seq 0 81) r).1) ∧
    completes p a ∧ erases a p.
Proof.
  intros Hs Ha. unfold makePuzzle, slice.
  rewrite (list_lookup_total_correct _ _ _ Hs).
  pose proof (shuffle_Permutation (seq 0 81) r) as Hperm.
  destruct (shuffle (seq 0 81) r) as [order r']. cbn [fst snd] in *.
  destruct (makePuzzle_loop_exact a (length σ) removals order Ha 0 (σ ++ [a]) a)
    as (σ' & -> & Hres); [by apply list_lookup_middle | apply erases_refl |].
  rewrite Z.sub_0_r in Hres. set (ixs := take (Z.to_nat removals) order) in *.
  exists σ', (zero_cells ixs a). split_and!; [done | done | done | | | |].
  - assert (NoDup order) as Hnd by (rewrite Hperm; apply NoDup_seq).
    assert (length order = 81) as Hlen by (by rewrite Hperm).
    rewrite count_zeros_zero_cells.
    + pose proof Ha as (Hla & _). rewrite full_count_zeros;
        [|done | by apply complete_board_full].
      unfold ixs. rewrite length_take. lia.
    + unfold ixs. eapply sublist_NoDup; [exact Hnd | apply sublist_take].
    + intros i Hi%in_take. rewrite Hperm in Hi. apply elem_of_seq in Hi.
      pose proof Ha as (_ & Hv & _). destruct (Hv i) as (v & ? & ?); [lia|].
      exists v. split; [done | lia].
  - intros i. split.
    + intros Hz. destruct (decide (i ∈ ixs)) as [|Hni]; [done|].
      assert (i < length a) as Hi.
      { apply lookup_lt_Some in Hz.
        enough (length (zero_cells ixs a) = length a) by lia.
        clear. revert a. induction ixs as [|k ixs IH]; intros a; [done|].
        rewrite zero_cells_cons, IH. apply length_insert. }
      rewrite zero_cells_lookup, decide_False in Hz by done.
      pose proof Ha as (Hla & Hv & _). destruct (Hv i) as (v & Hiv & Hr); [lia|].
      rewrite Hiv in Hz. injection Hz as ->. lia.
    + intros Hin. pose proof Hin as Hi%in_take.
      rewrite Hperm in Hi. apply elem_of_seq in Hi. pose proof Ha as (Hla & _).
      rewrite zero_cells_lookup by lia. by rewrite decide_True.
  - apply erases_completes; [done|]. clear.
    revert a. induction ixs as [|k ixs IH]; intros a; [apply erases_refl|].
    rewrite zero_cells_cons. eapply erases_trans; [apply erases_insert | apply IH].
  - clear. revert a. induction ixs as [|k ixs IH]; intros a; [apply erases_refl|].
    rewrite zero_cells_cons. eapply erases_trans; [apply erases_insert | apply IH].
Qed.


(** X5: carving a finished board empties exactly the first
    [min(removals, 81)] cells of the shuffled order (none when [removals]
    is negative) and nothing else; the board is a completion of the
    puzzle. *)
Theorem makePuzzle_exact (solved : loc) (removals : Z) (r : rand) (σ : store)
    (a : list Z) :
  σ !! solved = Some a → complete_board a →
  ∃ σ' p,
    makePuzzle solved removals r σ =
      Done (length σ, (shuffle (seq 0 81) r).2, σ') ∧
    σ' !! length σ = Some p ∧
    p = zero_cells (take (Z.to_nat removals) (shuffle (seq 0 81) r).1) a ∧
    count_zeros p = Z.to_nat (Z.min removals 81) ∧
    (∀ i, p !! i = Some 0%Z ↔ i ∈ take (Z.to_nat removals) (shuffle (seq 0 81) r).1) ∧
    completes p a.
Proof.
  intros Hs Ha.
  destruct (makePuzzle_carves solved removals r σ a Hs Ha)
    as (σ' & p & H1 & H2 & H3 & H4 & H5 & H6 & _).
  by exists σ', p.
Qed.

Lemma makePuzzle_exact_witness :
  ∃ σ' p,
    makePuzzle 0 40 r0 [reference] =
      Done (length [reference], (shuffle (seq 0 81) r0).2, σ') ∧
    σ' !! length [reference] = Some p ∧
    p = zero_cells (take (Z.to_nat 40) (shuffle (seq 0 81) r0).1) reference ∧
    count_zeros p = Z.to_nat (Z.min 40 81) ∧
    (∀ i, p !! i = Some 0%Z ↔ i ∈ take (Z.to_nat 40) (shuffle (seq 0 81) r0).1) ∧
    completes p reference.
Proof.
  apply (makePuzzle_exact 0 40 r0 [reference] reference);
    [reflexivity | apply complete_boardb_spec; by vm_compute].
Defined.

(** X6: on the puzzle carved from a finished board [solve] succeeds; what
    it returns is a solved board that keeps every number of the puzzle, and
    it is the board the puzzle was carved from or one that comes before it
    in reading order. *)
Theorem solve_carved_puzzle (solved : loc) (removals : Z) (r : rand)
    (σ : store) (a : list Z) :
  σ !! solved = Some a → complete_board a →
  ∃ puzzle r' σ' p g σ'' b,
    makePuzzle solved removals r σ = Done (puzzle, r', σ') ∧
    σ' !! puzzle = Some p ∧
    solve puzzle σ' = Done (Some g, σ'') ∧ σ'' !! g = Some b ∧
    solved_grid b ∧ preserves p b ∧ (b = a ∨ lex_before b a).
Proof.
  intros Hs Ha.
  destruct (makePuzzle_spec solved removals r σ a Hs)
    as (r' & σ' & p & Hrun & Hp & He & _ & _ & _).
  destruct (erased_solvable a p Ha He) as [b Hb].
  destruct (solve_eq σ' (length σ) p Hp) as (ok & b' & Hb' & Hsolve).
  rewrite Hb in Hb'. injection Hb' as <- <-.
  pose proof Ha as (Hla & Hv & Hnd). pose proof He as [Hlp Hcells].
  assert (complete_board b) as Hcb.
  { apply (backtrack_complete_board p); [congruence | by eapply erases_no_duplicates | | done].
    intros i v Hi. destruct (Hcells i) as [E|E]; [|rewrite E in Hi; injection Hi; lia].
    rewrite E in Hi. apply lookup_lt_Some in Hi as Hlt.
    destruct (Hv i) as (w & Hw & ?); [lia|]. rewrite Hw in Hi. injection Hi. lia. }
  pose proof (backtrack_post 81 p) as Hpost. rewrite Hb in Hpost.
  destruct Hpost as (Hf & _ & _).
  exists (length σ), r', σ', p, (length σ'), (σ' ++ [b]), b.
  split_and!; [done | done | done | by apply list_lookup_middle
    | by apply complete_board_solved | by apply fills_preserves |].
  apply (backtrack_least 81 p b); [congruence | done | by apply erases_completes].
Qed.

Lemma solve_carved_puzzle_witness :
  ∃ puzzle r' σ' p g σ'' b,
    makePuzzle 0 40 r0 [reference] = Done (puzzle, r', σ') ∧
    σ' !! puzzle = Some p ∧
    solve puzzle σ' = Done (Some g, σ'') ∧ σ'' !! g = Some b ∧
    solved_grid b ∧ preserves p b ∧ (b = reference ∨ lex_before b reference).
Proof.
  apply (solve_carved_puzzle 0 40 r0 [reference] reference);
    [reflexivity | apply complete_boardb_spec; by vm_compute].
Defined.

(** ** More on [shuffle] *)

Lemma shuffle_from_draws {A} (i : nat) (a : list A) (r : rand) (k : nat) :
  (shuffle_from i a r).2 k = r (i + k).
Proof.
  revert a r. induction i as [|i IH]; intros a r; [done|].
  cbn [shuffle_from]. unfold random_below. by rewrite IH.
Qed.

Lemma shuffle_from_length {A} (i : nat) (a : list A) (r : rand) :
  length (shuffle_from i a r).1 = length a.
Proof. by rewrite shuffle_from_Permutation. Qed.

(** X7: [shuffle] returns a permutation of the array it is given, of the
    same length, and draws one random number for each cell but the first;
    an array of at most one cell comes back as it is without a draw. *)
Theorem shuffle_permutes {A} (a : list A) (r : rand) :
  (shuffle a r).1 ≡ₚ a ∧
  length (shuffle a r).1 = length a ∧
  (∀ x, x ∈ (shuffle a r).1 ↔ x ∈ a) ∧
  (∀ k, (shuffle a r).2 k = r (length a - 1 + k)) ∧
  (length a ≤ 1 → shuffle a r = (a, r)).
Proof.
  pose proof (shuffle_from_Permutation (length a - 1) a r) as Hperm.
  split_and!.
  - done.
  - unfold shuffle. by rewrite Hperm.
  - intros x. unfold shuffle. by rewrite Hperm.
  - intros k. apply shuffle_from_draws.
  - intros Hlen. unfold shuffle. by replace (length a - 1) with 0 by lia.
Qed.

(** ** More on the conflict detector *)

Lemma updateConflicts_elem (st : list Z) (i : nat) :
  i ∈ updateConflicts st ↔ ∃ j, duplicate st i j.
Proof.
  unfold updateConflicts. rewrite mark_cells_spec by (intros k Hk%elem_of_seq; lia).
  rewrite elem_of_seq. unfold duplicate. split.
  - intros [?%not_elem_of_empty|(Hi & v & Hv & Hv0 & j & Hj & Hne & Hu & Hjv)]; [done|].
    exists j. split_and!; [lia | done | done | done |]. eauto.
  - intros (j & Hi & Hj & Hne & Hu & v & Hv0 & Hv & Hjv). right.
    split; [lia|]. exists v. split_and!; [done..|]. exists j. split_and!; done.
Qed.

Lemma updateConflicts_empty (st : list Z) :
  updateConflicts st = ∅ ↔ no_duplicates st.
Proof.
  split.
  - intros He i j Hd. assert (i ∈ updateConflicts st) as Hi
      by (apply updateConflicts_elem; eauto).
    rewrite He in Hi. by apply not_elem_of_empty in Hi.
  - intros Hnd. apply elem_of_equiv_empty_L. intros i [j Hd]%updateConflicts_elem.
    by apply (Hnd i j).
Qed.

(** X8: a digit passes the validator at a cell exactly when writing it
    there would not get that cell marked by the conflict detector (the cell
    must not already hold the digit). *)
Theorem valid_iff_unmarked (g : list Z) (pos : nat) (n : Z) :
  pos < 81 → pos < length g → n ≠ 0%Z → g !! pos ≠ Some n →
  valid g pos n = true ↔ pos ∉ updateConflicts (<[pos:=n]> g).
Proof.
  intros Hpos Hlen Hn Hown. rewrite <- not_false_iff_true.
  rewrite valid_false, updateConflicts_elem by done. apply not_iff_compat. split.
  - intros (k & Hk & Hu & Hv). assert (k ≠ pos) by (intros ->; done).
    exists k. split_and!; [done | done | done | done |].
    exists n. split_and!; [done | by apply list_lookup_insert_eq |].
    by rewrite list_lookup_insert_ne.
  - intros (k & _ & Hk & Hne & Hu & v & _ & Hv & Hkv).
    rewrite list_lookup_insert_eq in Hv by done. injection Hv as <-.
    rewrite list_lookup_insert_ne in Hkv by done. eauto.
Qed.

Lemma valid_iff_unmarked_witness :
  valid (<[0:=0%Z]> reference) 0 5 = true ↔
  0 ∉ updateConflicts (<[0:=5%Z]> (<[0:=0%Z]> reference)).
Proof.
  apply (valid_iff_unmarked (<[0:=0%Z]> reference) 0 5); [lia | simpl; lia | done | done].
Defined.

Lemma filter_marks_nil (marks : gset nat) :
  (∀ i, i ∈ marks → i < 81) →
  filter (λ i, i ∈ marks) (seq 0 81) = [] ↔ marks = ∅.
Proof.
  intros Hb. split.
  - intros Hf. apply elem_of_equiv_empty_L. intros i Hi.
    eapply (filter_nil_not_elem_of _ _ i Hf); [done|]. apply elem_of_seq.
    specialize (Hb i Hi). lia.
  - intros ->. induction (seq 0 81) as [|k l IH]; [done|].
    rewrite filter_cons_False; [done | apply not_elem_of_empty].
Qed.

(** X9: the Check button changes nothing but the marks and the status
    line: the marks become those of the conflict detector, and the line
    reads "No conflicts found." exactly when no row, column or block of the
    board holds a number twice, whether or not the numbers are the right
    ones. *)
Theorem check_click_reports (s : session) :
  (statusMsg (check_click s) = "No conflicts found." ↔ no_duplicates (state s)) ∧
  (statusMsg (check_click s) = "There are conflicts — red cells are wrong." ↔
     ∃ i j, duplicate (state s) i j) ∧
  conflicts (check_click s) = updateConflicts (state s) ∧
  state (check_click s) = state s ∧ solution (check_click s) = solution s ∧
  history (check_click s) = history s ∧ mistakes (check_click s) = mistakes s ∧
  prefilled (check_click s) = prefilled s.
Proof.
  assert (∀ i, i ∈ updateConflicts (state s) → i < 81) as Hb.
  { intros i (j & Hi & _)%updateConflicts_elem. done. }
  pose proof (filter_marks_nil _ Hb) as Hnil.
  unfold check_click. cbn [statusMsg conflicts state solution history mistakes prefilled].
  destruct (filter _ (seq 0 81)) as [|k l] eqn:E.
  - assert (no_duplicates (state s)) as Hnd
      by (apply updateConflicts_empty; by apply Hnil).
    split_and!; [done | | done..].
    split; [done|]. intros (i & j & Hd). by destruct (Hnd i j).
  - assert (k ∈ updateConflicts (state s)) as [j Hd]%updateConflicts_elem.
    { assert (k ∈ filter (λ i, i ∈ updateConflicts (state s)) (seq 0 81)) as Hk
        by (rewrite E; left).
      by apply list_elem_of_filter in Hk as [? _]. }
    split_and!; [| | done..].
    + split; [done|]. intros Hnd. by destruct (Hnd k j).
    + split; [eauto | done].
Qed.

(** ** More on the play session *)

Lemma every_from_spec (sol st : list Z) (i : nat) :
  every_from sol i st = true ↔
  ∀ j v, st !! j = Some v → v ≠ 0%Z ∧ sol !! (i + j) = Some v.
Proof.
  split; [|apply every_from_true].
  revert i. induction st as [|x st IH]; intros i; cbn [every_from]; [by intros _ j v|].
  destruct (negb (x =? 0)%Z && cell_is sol i x) eqn:E; [|done].
  apply andb_true_iff in E as [Hx%negb_true_iff%Z.eqb_neq Hs%cell_is_spec].
  intros H [|j] v Hj; simpl in Hj.
  - injection Hj as <-. by rewrite Nat.add_0_r.
  - rewrite Nat.add_succ_r. by apply (IH (S i)).
Qed.

(** In a session that keeps the invariant, the puzzle is solved exactly
    when the board is the solution, that is when [giveHint] has nothing
    left to offer. *)
Lemma isSolved_inv (s : session) :
  session_inv s →
  (isSolved s = true ↔ state s = solution s) ∧
  (incorrect s = [] ↔ state s = solution s).
Proof.
  intros ((Hl1 & Hl2 & Hl3) & (_ & Hv & _) & _).
  assert (∀ i w, solution s !! i = Some w → w ≠ 0%Z) as Hnz.
  { intros i w Hi. apply lookup_lt_Some in Hi as Hlt.
    destruct (Hv i) as (w' & Hw' & ?); [lia|]. rewrite Hi in Hw'.
    injection Hw' as <-. lia. }
  split.
  - unfold isSolved. rewrite every_from_spec. split.
    + intros H. apply list_eq. intros i.
      destruct (state s !! i) as [v|] eqn:E.
      * symmetry. by apply (H i v).
      * symmetry. apply lookup_ge_None. apply lookup_ge_None in E. lia.
    + intros Heq j v Hj. rewrite Heq in Hj. split; [by eapply Hnz | done].
  - split.
    + intros Hnil. apply list_eq. intros i.
      destruct (decide (i < 81)) as [Hi|Hi]; [|by rewrite !lookup_ge_None_2 by lia].
      destruct (decide (state s !! i = solution s !! i)) as [|Hne]; [done|].
      assert (i ∈ incorrect s) as Hin by (apply incorrect_spec; auto).
      rewrite Hnil in Hin. by apply elem_of_nil in Hin.
    + intros Heq. destruct (incorrect s) as [|i l] eqn:E; [done|].
      assert (i ∈ incorrect s) as [Hi Hbad]%incorrect_spec by (rewrite E; left).
      rewrite Heq in Hbad. destruct Hbad as [Hz|]; [|done]. by destruct (Hnz i 0%Z).
Qed.

(** X10: in a reachable session the win test succeeds exactly when the
    board equals the solution, which is exactly when no cell is left for a
    hint; revealing the solution makes it succeed and leaves no conflict
    mark. *)
Theorem isSolved_iff_solution (s : session) :
  reachable s →
  (isSolved s = true ↔ state s = solution s) ∧
  (isSolved s = true ↔ incorrect s = []) ∧
  isSolved (revealSolution s) = true ∧
  conflicts (revealSolution s) = ∅ ∧
  statusMsg (revealSolution s) = "Solution revealed".
Proof.
  intros Hreach. pose proof (reachable_inv s Hreach) as Hinv.
  destruct (isSolved_inv s Hinv) as [H1 H2].
  destruct (isSolved_inv _ (session_inv_reveal s Hinv)) as [H3 _].
  split_and!; [done | by rewrite H1, H2 | by apply H3 | | done].
  unfold revealSolution, render. cbn [status conflicts state].
  apply updateConflicts_empty. by destruct Hinv as (_ & (_ & _ & ?) & _).
Qed.

Lemma isSolved_iff_solution_witness :
  (isSolved demo = true ↔ state demo = solution demo) ∧
  (isSolved demo = true ↔ incorrect demo = []) ∧
  isSolved (revealSolution demo) = true ∧
  conflicts (revealSolution demo) = ∅ ∧
  statusMsg (revealSolution demo) = "Solution revealed".
Proof.
  apply (isSolved_iff_solution demo).
  apply (reach_load 1 r0). vm_compute. reflexivity.
Defined.

(** What [newPuzzle] deals, on top of the invariant. *)
Lemma newPuzzle_deals_spec (removals : Z) (r : rand) (s : session) :
  ∃ s', newPuzzle removals r s = Done s' ∧
    complete_board (solution s') ∧ erases (solution s') (state s') ∧
    count_zeros (state s') = Z.to_nat (Z.min removals 81) ∧
    prefilled s' = (λ v, negb (v =? 0)%Z) <$> state s' ∧
    mistakes s' = 0 ∧ history s' = [] ∧ selected s' = selected s ∧
    conflicts s' = ∅ ∧ statusMsg s' = "New puzzle — good luck!".
Proof.
  unfold newPuzzle.
  destruct (generateSolved_spec r []) as (r1 & a & -> & Ha).
  destruct (makePuzzle_carves 0 removals r1 [a] a eq_refl Ha)
    as (σ2 & p & Hrun & Hp & _ & Hcount & _ & Hcomp & He).
  cbn [length app] in Hrun, Hp |- *. rewrite Hrun.
  rewrite (list_lookup_total_correct _ _ _ Hp). change ([a] !!! 0) with a.
  eexists. split; [done|]. unfold render.
  cbn [status solution state prefilled selected mistakes history conflicts statusMsg].
  split_and!; [done..| | done].
  apply updateConflicts_empty. eapply erases_no_duplicates; [|done].
  by destruct Ha as (_ & _ & ?).
Qed.

(** X11: [newPuzzle] always deals a game: the solution is a solved board,
    the visible board is the solution with exactly [min(removals, 81)]
    cells emptied (none for a negative number), the locked cells are
    exactly the cells that are not empty, the counter and the history start
    empty, no conflict is marked, and the game starts solved only when
    nothing was removed. *)
Theorem newPuzzle_deals (removals : Z) (r : rand) (s : session) :
  ∃ s', newPuzzle removals r s = Done s' ∧
    solved_grid (solution s') ∧ erases (solution s') (state s') ∧
    count_zeros (state s') = Z.to_nat (Z.min removals 81) ∧
    (∀ i, is_prefilled s' i = true ↔ ∃ v, state s' !! i = Some v ∧ v ≠ 0%Z) ∧
    mistakes s' = 0 ∧ history s' = [] ∧ conflicts s' = ∅ ∧
    selected s' = selected s ∧
    (isSolved s' = true ↔ (removals ≤ 0)%Z).
Proof.
  destruct (newPuzzle_deals_spec removals r s)
    as (s' & Hrun & Hsol & He & Hcount & Hpre & Hm & Hh & Hsel & Hc & _).
  exists s'. split_and!; [done | by apply complete_board_solved | done..| | done | done | done | done |].
  - intros i. unfold is_prefilled. rewrite Hpre, list_lookup_fmap.
    destruct (state s' !! i) as [v|]; simpl.
    + rewrite negb_true_iff, Z.eqb_neq. split; [eauto | by intros (? & [= <-] & ?)].
    + split; [done | by intros (? & ? & _)].
  - pose proof Hsol as (Hla & Hv & _). destruct He as [Hlp Hcells].
    unfold isSolved. rewrite every_from_spec. split.
    + intros H.
      assert (count_zeros (state s') = 0); [|lia].
      apply full_count_zeros; [congruence|]. intros i Hi Hz.
      by destruct (H i 0%Z Hz).
    + intros Hrem j v Hj.
      assert (count_zeros (state s') = 0) as Hzero by lia.
      assert (v ≠ 0%Z) as Hv0.
      { intros ->. unfold count_zeros in Hzero.
        apply length_zero_iff_nil in Hzero.
        apply (filter_nil_not_elem_of _ _ 0%Z Hzero); [done|].
        by eapply list_elem_of_lookup_2. }
      split; [done|]. cbn [Nat.add]. destruct (Hcells j) as [E|E]; congruence.
Qed.

Lemma run_inv (acts : list action) (s : session) :
  reachable s → Forall action_ok acts →
  ∃ s', run acts s = Done s' ∧ reachable s'.
Proof.
  intros Hreach Hok. revert s Hreach.
  induction Hok as [|a acts Ha _ IH]; intros s Hreach; [by exists s|].
  cbn [run].
  assert (∃ s1, step a s = Done s1) as [s1 Hs1].
  { destruct a; try (by eexists). simpl.
    pose proof (reachable_inv s Hreach) as (_ & _ & _ & _ & Hsel).
    destruct (session_inv_newPuzzle removals r s Hsel) as (s1 & -> & _). eauto. }
  rewrite Hs1. apply IH. by eapply reach_step.
Qed.

(** What one handler other than [newPuzzle] leaves alone. *)
Ltac same_game_done :=
  unfold is_prefilled; cbn [cell_click status solution mistakes prefilled];
  split_and!; [done | lia | lia | done].

Lemma step_same_game (a : action) (s : session) :
  same_game a →
  ∃ s', step a s = Done s' ∧ solution s' = solution s ∧
    mistakes s ≤ mistakes s' ≤ mistakes s + 1 ∧
    (∀ i, is_prefilled s' i = true → is_prefilled s i = true).
Proof.
  intros Ha. destruct a as [i|idx num|idx|n|focused n|focused d| |k| |removals r];
    [..|done];
    (eexists; split; [reflexivity|]).
  - same_game_done.
  - unfold cell_input. destruct (is_prefilled s idx) eqn:E; [same_game_done|].
    set (s1 := Session _ _ _ _ _ _ _ _).
    destruct (checkWin_fields s1) as (-> & _ & Epre & _ & -> & _).
    unfold is_prefilled. rewrite Epre. cbn [s1 solution mistakes prefilled].
    split_and!; [done | | | done]; destruct (_ && _); lia.
  - unfold cell_keydown. destruct (is_prefilled s idx) eqn:E; same_game_done.
  - unfold numpad_click. destruct (selected s) as [idx|]; [|same_game_done].
    destruct (is_prefilled s idx) eqn:E; [same_game_done|].
    set (s1 := Session _ _ _ _ _ _ _ _).
    destruct (checkWin_fields s1) as (-> & _ & Epre & _ & -> & _).
    unfold is_prefilled. rewrite Epre. cbn [s1 solution mistakes prefilled].
    split_and!; [done | | | done]; destruct (negb _); lia.
  - unfold key_digit. destruct focused; [same_game_done|].
    destruct (selected s) as [idx|]; [|same_game_done].
    destruct (is_prefilled s idx) eqn:E; [same_game_done|].
    set (s1 := Session _ _ _ _ _ _ _ _).
    destruct (checkWin_fields s1) as (-> & _ & Epre & _ & -> & _).
    unfold is_prefilled. rewrite Epre. cbn [s1 solution mistakes prefilled].
    split_and!; [done | | | done]; destruct (negb _); lia.
  - unfold key_arrow. destruct focused; [same_game_done|].
    destruct (selected s) as [sel|]; [|same_game_done].
    destruct (_ && _); same_game_done.
  - unfold undo. destruct (history s) as [|[idx prev] h]; [same_game_done|].
    unfold render. same_game_done.
  - unfold giveHint. destruct (incorrect s) as [|i0 l]; [same_game_done|].
    set (s1 := render _).
    destruct (checkWin_fields s1) as (Es & _ & Epre & _ & Em & _).
    unfold is_prefilled. cbn [status solution mistakes prefilled].
    rewrite Es, Epre, Em. cbn [s1 render solution mistakes prefilled].
    split_and!; [done | lia | lia |].
    intros i Hi. by apply is_prefilled_insert_false in Hi as [_ Hi].
  - unfold revealSolution, render. same_game_done.
Qed.

(** X12: while the game is not replaced by a new one, whatever the player
    does runs to its end and never changes the solution, never lowers the
    mistake counter, raises it by at most one per action, and never locks a
    cell. *)
Theorem play_keeps_game (acts : list action) (s : session) :
  reachable s → Forall action_ok acts → Forall same_game acts →
  ∃ s', run acts s = Done s' ∧ reachable s' ∧
    solution s' = solution s ∧
    mistakes s ≤ mistakes s' ≤ mistakes s + length acts ∧
    (∀ i, is_prefilled s' i = true → is_prefilled s i = true).
Proof.
  intros Hreach Hok Hsame.
  destruct (run_inv acts s Hreach Hok) as (s' & Hrun & Hreach').
  exists s'. split; [done|]. split; [done|]. clear Hreach Hreach' Hok.
  revert s Hrun. induction Hsame as [|a acts Ha _ IH]; intros s Hrun.
  { injection Hrun as <-. simpl. split_and!; done || lia. }
  cbn [run] in Hrun.
  destruct (step_same_game a s Ha) as (s1 & Hs1 & Hsol & Hm & Hpre).
  rewrite Hs1 in Hrun. destruct (IH s1 Hrun) as (Hsol' & Hm' & Hpre').
  cbn [length]. split_and!; [congruence | lia | lia | auto].
Qed.

Lemma play_keeps_game_witness :
  ∃ s', run [Click 23; Numpad 5; Hint 3; Undo; Reveal] demo = Done s' ∧
    reachable s' ∧ solution s' = solution demo ∧
    mistakes demo ≤ mistakes s' ≤
      mistakes demo + length [Click 23; Numpad 5; Hint 3; Undo; Reveal] ∧
    (∀ i, is_prefilled s' i = true → is_prefilled demo i = true).
Proof.
  apply (play_keeps_game [Click 23; Numpad 5; Hint 3; Undo; Reveal] demo).
  - apply (reach_load 1 r0). vm_compute. reflexivity.
  - repeat constructor; simpl; lia.
  - repeat constructor.
Defined.

Lemma unwind_push (h : list (nat * Z)) (st : list Z) (idx : nat) (v : Z) :
  unwind ((idx, st !!! idx) :: h) (<[idx:=v]> st) = unwind h st.
Proof. unfold unwind. cbn [foldl fst snd]. by rewrite restore_write. Qed.

Lemma insert_same (st : list Z) (idx : nat) : <[idx:=st !!! idx]> st = st.
Proof.
  destruct (decide (idx < length st)) as [Hlt|Hge].
  - by apply list_insert_id, list_lookup_lookup_total_lt.
  - apply list_insert_ge. lia.
Qed.

(** Every handler of play keeps what taking back the whole history gives. *)
Lemma step_unwind (a : action) (s s' : session) :
  is_play a → step a s = Done s' →
  unwind (history s') (state s') = unwind (history s) (state s).
Proof.
  intros Ha Hs.
  destruct a as [i|idx num|idx|n|focused n|focused d| |k| |removals r]; [..|done|done];
    injection Hs as <-.
  - done.
  - unfold cell_input. destruct (is_prefilled s idx); [done|].
    set (s1 := Session _ _ _ _ _ _ _ _).
    destruct (checkWin_fields s1) as (_ & -> & _ & _ & _ & ->).
    cbn [s1 state history].
    destruct (decide (state s !!! idx = num)) as [Hc|Hc].
    + rewrite decide_False by tauto. by rewrite <- Hc, insert_same.
    + rewrite decide_True by done. apply unwind_push.
  - unfold cell_keydown. destruct (is_prefilled s idx); [done|]. apply unwind_push.
  - unfold numpad_click. destruct (selected s) as [idx|]; [|done].
    destruct (is_prefilled s idx); [done|].
    set (s1 := Session _ _ _ _ _ _ _ _).
    destruct (checkWin_fields s1) as (_ & -> & _ & _ & _ & ->). apply unwind_push.
  - unfold key_digit. destruct focused; [done|].
    destruct (selected s) as [idx|]; [|done].
    destruct (is_prefilled s idx); [done|].
    set (s1 := Session _ _ _ _ _ _ _ _).
    destruct (checkWin_fields s1) as (_ & -> & _ & _ & _ & ->). apply unwind_push.
  - unfold key_arrow. destruct focused; [done|].
    destruct (selected s) as [sel|]; [|done]. by destruct (_ && _).
  - unfold undo. destruct (history s) as [|[idx prev] h] eqn:Eh;
      cbn [status render history state]; rewrite ?Eh; reflexivity.
  - unfold giveHint. destruct (incorrect s) as [|i0 l]; [done|].
    set (s1 := render _).
    destruct (checkWin_fields s1) as (_ & Est & _ & _ & _ & Eh).
    cbn [status state history]. rewrite Est, Eh. apply unwind_push.
Qed.

Lemma undo_all_unwind (s : session) :
  state (undo_all s) = unwind (history s) (state s) ∧ history (undo_all s) = [].
Proof.
  unfold undo_all. remember (length (history s)) as n eqn:Hn.
  revert s Hn. induction n as [|n IH]; intros s Hn.
  - destruct (history s) eqn:Eh; [|discriminate]. by split.
  - destruct (history s) as [|[idx prev] h] eqn:Eh; [discriminate|].
    rewrite Nat.iter_succ_r.
    assert (history (undo s) = h ∧ state (undo s) = <[idx:=prev]> (state s)) as [Eh' Es'].
    { unfold undo. by rewrite Eh. }
    destruct (IH (undo s)) as [-> ->]; [rewrite Eh'; simpl in Hn; lia|].
    by rewrite Eh', Es'.
Qed.

(** X13: whatever the player does short of revealing the solution or
    starting a new game, pressing Undo until nothing is left to undo gives
    the board that the same would have given before; from a fresh game it
    gives back the puzzle as it was dealt. *)
Theorem undo_all_restores (acts : list action) (s s' : session) :
  reachable s → Forall action_ok acts → Forall is_play acts →
  run acts s = Done s' →
  state (undo_all s') = state (undo_all s) ∧
  history (undo_all s') = [] ∧
  (history s = [] → state (undo_all s') = state s).
Proof.
  intros _ _ Hplay Hrun.
  assert (unwind (history s') (state s') = unwind (history s) (state s)) as Hu.
  { revert s Hrun. induction Hplay as [|a acts Ha _ IH]; intros s Hrun.
    - by injection Hrun as <-.
    - cbn [run] in Hrun. destruct (step a s) as [s1|] eqn:Hs1; [|done].
      rewrite (IH s1 Hrun). by eapply step_unwind. }
  destruct (undo_all_unwind s') as [-> ->], (undo_all_unwind s) as [-> _].
  split_and!; [done | done |]. intros Hh. by rewrite Hu, Hh.
Qed.

Lemma undo_all_restores_witness :
  state (undo_all (undo (giveHint 3 (numpad_click 5 (cell_click 23 demo))))) =
    state (undo_all demo) ∧
  history (undo_all (undo (giveHint 3 (numpad_click 5 (cell_click 23 demo))))) = [] ∧
  (history demo = [] →
   state (undo_all (undo (giveHint 3 (numpad_click 5 (cell_click 23 demo))))) =
     state demo).
Proof.
  apply (undo_all_restores [Click 23; Numpad 5; Hint 3; Undo] demo).
  - apply (reach_load 1 r0). vm_compute. reflexivity.
  - repeat constructor; simpl; lia.
  - repeat constructor.
  - reflexivity.
Defined.

Lemma giveHint_run (k : nat) (s : session) :
  incorrect s ≠ [] →
  ∃ idx, idx ∈ incorrect s ∧
    giveHint k s =
    status "Hint revealed"
      (checkWin
         (render
            {| solution := solution s;
               state := <[idx:=solution s !!! idx]> (state s);
               prefilled := <[idx:=false]> (prefilled s);
               selected := selected s; mistakes := mistakes s;
               history := (idx, state s !!! idx) :: history s;
               conflicts := conflicts s; statusMsg := statusMsg s |})).
Proof.
  intros Hne. unfold giveHint. destruct (incorrect s) as [|i0 l] eqn:El; [done|].
  eexists. split; [|done]. by apply hint_choice.
Qed.

Lemma filter_all_iff (l : list nat) (x : nat) :
  x ∉ l → filter (λ i, i ≠ x) l = l ∧ length (filter (λ i, i ≠ x) l) = length l.
Proof.
  intros Hx. assert (filter (λ i, i ≠ x) l = l) as E; [|by rewrite E].
  induction l as [|y l IH]; [done|].
  rewrite filter_cons, decide_True, IH; [done| |];
    rewrite not_elem_of_cons in Hx; [tauto | by intros ->; tauto].
Qed.

Lemma length_filter_ne (l : list nat) (x : nat) :
  NoDup l → x ∈ l → length (filter (λ i, i ≠ x) l) + 1 = length l.
Proof.
  induction l as [|y l IH]; intros Hnd Hx; [by apply elem_of_nil in Hx|].
  apply NoDup_cons in Hnd as [Hy Hnd]. rewrite filter_cons.
  destruct (decide (y = x)) as [->|Hne].
  - rewrite decide_False by tauto. cbn [length].
    rewrite (proj2 (filter_all_iff l x Hy)). lia.
  - rewrite decide_True by done. cbn [length].
    apply elem_of_cons in Hx as [->|Hx]; [done|]. rewrite <- IH by done. lia.
Qed.

(** A hint takes exactly one cell off the list of cells to correct. *)
Lemma giveHint_incorrect (k : nat) (s : session) :
  session_inv s → incorrect s ≠ [] →
  length (incorrect (giveHint k s)) + 1 = length (incorrect s) ∧
  solution (giveHint k s) = solution s ∧ mistakes (giveHint k s) = mistakes s.
Proof.
  intros ((Hl1 & Hl2 & Hl3) & (_ & Hv & _) & _) Hne.
  destruct (giveHint_run k s Hne) as (idx & Hidx & ->).
  set (s1 := render _).
  destruct (checkWin_fields s1) as (Es & Est & _ & _ & Em & _).
  split; [|by cbn [status solution mistakes]; rewrite Es, Em].
  pose proof Hidx as [Hidx81 _]%incorrect_spec.
  rewrite <- (length_filter_ne (incorrect s) idx);
    [|apply NoDup_filter, NoDup_seq | done].
  f_equal. f_equal. unfold incorrect. rewrite list_filter_filter.
  apply list_filter_iff. intros i.
  cbn [status state solution]. rewrite Est, Es. cbn [s1 render state solution].
  destruct (decide (i = idx)) as [->|Hi].
  - rewrite list_lookup_insert_eq by lia.
    destruct (Hv idx Hidx81) as (v & Hiv & Hr).
    rewrite (list_lookup_total_correct _ _ _ Hiv), Hiv.
    split; [intros [[= ->]|]; [lia | done] | tauto].
  - rewrite list_lookup_insert_ne by done. tauto.
Qed.

Lemma hints_spec (ks : list nat) (s : session) :
  session_inv s → length ks = length (incorrect s) →
  session_inv (hints ks s) ∧ state (hints ks s) = solution s ∧
  solution (hints ks s) = solution s ∧ mistakes (hints ks s) = mistakes s.
Proof.
  revert s. induction ks as [|k ks IH]; intros s Hinv Hlen.
  - split_and!; [done | | done | done].
    apply (isSolved_inv s Hinv). by destruct (incorrect s).
  - assert (incorrect s ≠ []) as Hne by (by destruct (incorrect s)).
    destruct (giveHint_incorrect k s Hinv Hne) as (Hl & Hsol & Hm).
    destruct (IH (giveHint k s)) as (Hinv' & Hst & Hsol' & Hm');
      [by apply session_inv_giveHint | simpl in Hlen; lia|].
    change (hints (k :: ks) s) with (hints ks (giveHint k s)).
    split_and!; [done | congruence..].
Qed.

(** X14: each hint takes exactly one cell off the list of empty or wrong
    cells without touching the mistake counter; so as many hints as there
    are such cells, whatever cells the draws pick, end with the board equal
    to the solution and the puzzle solved. *)
Theorem hints_solve (ks : list nat) (s : session) :
  reachable s → length ks = length (incorrect s) →
  state (hints ks s) = solution s ∧ isSolved (hints ks s) = true ∧
  mistakes (hints ks s) = mistakes s ∧
  (∀ k, incorrect s ≠ [] →
     length (incorrect (giveHint k s)) + 1 = length (incorrect s)).
Proof.
  intros Hreach Hlen. pose proof (reachable_inv s Hreach) as Hinv.
  destruct (hints_spec ks s Hinv Hlen) as (Hinv' & Hst & Hsol & Hm).
  split_and!; [done | | done |].
  - apply (isSolved_inv _ Hinv'). congruence.
  - intros k Hne. by apply giveHint_incorrect.
Qed.

Lemma hints_solve_witness :
  state (hints [4] demo_typed) = solution demo_typed ∧
  isSolved (hints [4] demo_typed) = true ∧
  mistakes (hints [4] demo_typed) = mistakes demo_typed ∧
  (∀ k, incorrect demo_typed ≠ [] →
     length (incorrect (giveHint k demo_typed)) + 1 = length (incorrect demo_typed)).
Proof.
  apply (hints_solve [4] demo_typed).
  - apply (reach_step (Input 23 5) demo); [|simpl; lia|reflexivity].
    apply (reach_load 1 r0). vm_compute. reflexivity.
  - reflexivity.
Defined.

(** X15: in every reachable session the three boards have 81 cells, the
    solution is a solved board, the selected cell (if any) is on the board,
    and every entry of the history points at a cell of the board that is
    not locked, so that [undo()] never writes to a locked cell. *)
Theorem reachable_well_formed (s : session) :
  reachable s →
  wf_session s ∧ solved_grid (solution s) ∧ full (solution s) ∧
  (∀ i, selected s = Some i → i < 81) ∧
  (∀ idx prev, (idx, prev) ∈ history s → idx < 81 ∧ is_prefilled s idx = false) ∧
  (∀ i, is_prefilled s i = true → state (undo s) !! i = state s !! i).
Proof.
  intros Hreach.
  destruct (reachable_inv s Hreach) as (Hwf & Hsol & _ & Hhist & Hsel).
  split_and!; [done | by apply complete_board_solved | by apply complete_board_full
    | done | |].
  - intros idx prev He. by destruct (Hhist _ He).
  - intros i Hi. unfold undo.
    destruct (history s) as [|[idx prev] h] eqn:Eh; [done|].
    cbn [status render state].
    destruct (Hhist (idx, prev)) as [Hfree _]; [left|].
    apply list_lookup_insert_ne. intros ->. simpl in Hfree. congruence.
Qed.

Lemma reachable_well_formed_witness :
  wf_session demo_typed ∧ solved_grid (solution demo_typed) ∧
  full (solution demo_typed) ∧
  (∀ i, selected demo_typed = Some i → i < 81) ∧
  (∀ idx prev, (idx, prev) ∈ history demo_typed →
     idx < 81 ∧ is_prefilled demo_typed idx = false) ∧
  (∀ i, is_prefilled demo_typed i = true →
     state (undo demo_typed) !! i = state demo_typed !! i).
Proof.
  apply (reachable_well_formed demo_typed).
  apply (reach_step (Input 23 5) demo); [|simpl; lia|reflexivity].
  apply (reach_load 1 r0). vm_compute. reflexivity.
Defined.

(** ** Every order can come out of [shuffle] *)

Lemma last_split {A} (l : list A) (n : nat) (x : A) :
  length l = S n → l !! n = Some x → l = take n l ++ [x].
Proof.
  intros Hlen Hx. rewrite <- (take_S_r l n x Hx).
  symmetry. apply take_ge. lia.
Qed.

Lemma swap_app {A} (a t : list A) (i j : nat) :
  i < length a → j < length a → swap (a ++ t) i j = swap a i j ++ t.
Proof.
  intros Hi Hj. unfold swap. rewrite !lookup_app_l by done.
  destruct (lookup_lt_is_Some_2 a i Hi) as [x ->].
  destruct (lookup_lt_is_Some_2 a j Hj) as [y ->].
  rewrite insert_app_l by done. by rewrite insert_app_l by (by rewrite length_insert).
Qed.

Lemma swap_last {A} (a : list A) (i j : nat) (x : A) :
  i < length a → a !! j = Some x → swap a i j !! i = Some x.
Proof.
  intros Hi Hj. unfold swap. destruct (lookup_lt_is_Some_2 a i Hi) as [y Hy].
  rewrite Hy, Hj. destruct (decide (i = j)) as [->|Hne].
  - rewrite list_lookup_insert_eq by (by rewrite length_insert). congruence.
  - rewrite list_lookup_insert_ne by done. by apply list_lookup_insert_eq.
Qed.

Lemma shuffle_from_reaches {A} (i : nat) :
  ∀ (a1 p1 t : list A) (r' : rand),
  length a1 = S i → p1 ≡ₚ a1 →
  ∃ r, shuffle_from i (a1 ++ t) r = (p1 ++ t, r').
Proof.
  induction i as [|i IH]; intros a1 p1 t r' Hlen Hperm.
  - exists r'. destruct a1 as [|y [|]]; try discriminate.
    apply Permutation_singleton_r in Hperm as ->. done.
  - assert (length p1 = S (S i)) as Hlp by (by rewrite Hperm).
    destruct (lookup_lt_is_Some_2 p1 (S i)) as [x Hx]; [lia|].
    pose proof (last_split p1 (S i) x Hlp Hx) as Hp1.
    assert (x ∈ a1) as [j Hj]%list_elem_of_lookup_1.
    { rewrite <- Hperm. by eapply list_elem_of_lookup_2. }
    pose proof (lookup_lt_Some _ _ _ Hj) as Hjlt.
    set (c := swap a1 (S i) j).
    assert (length c = S (S i)) as Hlc by (unfold c; by rewrite swap_Permutation).
    assert (c !! S i = Some x) as Hcx by (apply swap_last; [lia | done]).
    pose proof (last_split c (S i) x Hlc Hcx) as Hc.
    destruct (IH (take (S i) c) (take (S i) p1) (x :: t) r') as [r1 Hr1].
    { rewrite length_take. lia. }
    { apply (Permutation_app_inv_r [x]). rewrite <- Hp1, <- Hc.
      unfold c. by rewrite swap_Permutation. }
    exists (cons_rand j r1). cbn [shuffle_from]. unfold random_below.
    cbn [cons_rand]. rewrite Nat.mod_small by lia.
    rewrite swap_app by lia. fold c. rewrite Hc, Hp1 at 1.
    rewrite <- !app_assoc. exact Hr1.
Qed.

Lemma shuffle_reaches_any {A} (a p : list A) (r' : rand) :
  p ≡ₚ a → ∃ r, shuffle a r = (p, r').
Proof.
  intros Hperm. unfold shuffle. destruct a as [|y a].
  - apply Permutation_nil_r in Hperm as ->. by exists r'.
  - destruct (shuffle_from_reaches (length a) (y :: a) p [] r') as [r Hr];
      [done | done |].
    exists r. rewrite !app_nil_r in Hr.
    by replace (length (y :: a) - 1) with (length a) by (simpl; lia).
Qed.

(** X16: every rearrangement of an array can come out of [shuffle]: for
    each permutation of the input there is a sequence of random draws that
    produces it, whatever draws are to follow. *)
Theorem shuffle_reaches {A} (a p : list A) (r' : rand) :
  p ≡ₚ a → ∃ r, shuffle a r = (p, r').
Proof. apply shuffle_reaches_any. Qed.

Lemma shuffle_reaches_witness :
  ∃ r, shuffle [1; 2; 3]%Z r = ([3; 1; 2]%Z, r0).
Proof. apply (shuffle_reaches [1; 2; 3]%Z [3; 1; 2]%Z r0). by apply (bool_decide_unpack _). Defined.

(** ** Every solved board can come out of the generator *)

Lemma place_reaches (sol : list Z) :
  complete_board sol →
  ∀ fuel pos st r', pos + fuel = 81 → gen_inv pos st →
  (∀ i, i < pos → grid st !! i = sol !! i) →
  ∃ r st', place fuel pos st r = Done (true, st', r') ∧ grid st' = sol.
Proof.
  intros (Hls & Hv & Hnd). induction fuel as [|fuel IH]; intros pos st r' Hfuel Hinv Hagree.
  - exists r', st. rewrite place_eq. replace pos with 81 in * by lia.
    split; [done|]. destruct Hinv as (Hlg & _). apply list_eq. intros i.
    destruct (decide (i < 81)); [by apply Hagree|].
    by rewrite !lookup_ge_None_2 by lia.
  - assert (pos < 81) as Hpos by lia.
    destruct (Hv pos Hpos) as (v & Hsv & Hr).
    assert (taken pos v st = false) as Hfree.
    { destruct (taken pos v st) eqn:E; [|done].
      apply (taken_spec pos v st Hpos Hinv) in E as (i & Hi & Hu & Hiv).
      destruct (Hnd pos i). split_and!; [done | lia | lia | done |].
      exists v. split_and!; [lia | done | by rewrite <- Hagree]. }
    pose proof (gen_inv_put pos v st Hpos Hinv Hfree Hr) as Hinv1.
    destruct (IH (pos + 1) (put pos v st) r') as (r1 & st' & Hrun & Hgrid);
      [lia | done | |].
    { intros i Hi. cbn [put grid]. destruct Hinv as (Hlg & _).
      destruct (decide (i = pos)) as [->|Hne].
      - rewrite list_lookup_insert_eq by lia. done.
      - rewrite list_lookup_insert_ne by done. apply Hagree. lia. }
    assert (v ∈ digits) as [rest Hrest]%elem_of_Permutation
      by (by apply digits_range).
    destruct (shuffle_reaches_any digits (v :: rest) r1) as [r Hshuffle]; [done|].
    exists r, st'. split; [|done].
    rewrite place_eq. replace (pos =? 81) with false by (symmetry; apply Nat.eqb_neq; lia).
    rewrite Hshuffle. cbn [place_loop]. by rewrite Hfree, Hrun.
Qed.

Lemma generateSolved_reaches_any (sol : list Z) (σ : store) (r' : rand) :
  complete_board sol →
  ∃ r, generateSolved r σ = Done (length σ, r', σ ++ [sol]).
Proof.
  intros Hsol.
  destruct (place_reaches sol Hsol 81 0 gen_init r' eq_refl gen_init_inv)
    as (r & st' & Hrun & Hgrid); [intros i Hi; lia|].
  exists r. unfold generateSolved. by rewrite Hrun, Hgrid.
Qed.

(** X17: every solved board can come out of [generateSolved]: for each
    board of 81 digits without duplicate in a row, column or block there
    are random draws on which the generator returns that board. *)
Theorem generateSolved_reaches (sol : list Z) (σ : store) (r' : rand) :
  complete_board sol →
  ∃ r, generateSolved r σ = Done (length σ, r', σ ++ [sol]).
Proof. apply generateSolved_reaches_any. Qed.

Lemma generateSolved_reaches_witness :
  ∃ r, generateSolved r [] = Done (length ([] : list (list Z)), r0, [] ++ [reference]).
Proof.
  apply (generateSolved_reaches reference [] r0).
  apply complete_boardb_spec. by vm_compute.
Defined.

(** X18: every puzzle can be dealt: for each solved board and each order
    of the 81 cells there are random draws on which [newPuzzle] takes that
    board as the solution and shows it with the first [removals] cells of
    that order emptied. *)
Theorem newPuzzle_reaches (sol : list Z) (order : list nat) (removals : Z)
    (s : session) :
  complete_board sol → order ≡ₚ seq 0 81 →
  ∃ r s', newPuzzle removals r s = Done s' ∧ solution s' = sol ∧
    state s' = zero_cells (take (Z.to_nat removals) order) sol.
Proof.
  intros Hsol Horder.
  destruct (shuffle_reaches_any (seq 0 81) order r0 Horder) as [r1 Hr1].
  destruct (generateSolved_reaches_any sol [] r1 Hsol) as [r Hr].
  destruct (makePuzzle_carves 0 removals r1 [sol] sol eq_refl Hsol)
    as (σ2 & p & Hrun & Hp & Hpeq & _).
  rewrite Hr1 in Hrun, Hpeq. cbn [fst snd length] in Hrun, Hpeq, Hp.
  exists r. unfold newPuzzle. rewrite Hr. cbn [length app]. rewrite Hrun.
  rewrite (list_lookup_total_correct _ _ _ Hp). eexists. split; [done|].
  cbn [status render solution state]. by split.
Qed.

Lemma newPuzzle_reaches_witness :
  ∃ r s', newPuzzle 30 r initial = Done s' ∧ solution s' = reference ∧
    state s' = zero_cells (take (Z.to_nat 30) (seq 0 81)) reference.
Proof.
  apply (newPuzzle_reaches reference (seq 0 81) 30 initial); [|done].
  apply complete_boardb_spec. by vm_compute.
Defined.

(** ** More on the handlers *)

(** X19: while an input field has the focus, the window handler leaves an
    arrow key to the field and changes nothing.  Otherwise the key moves the
    selection by one cell or one row when the target is on the board and
    leaves it where it is when not, so the selection never leaves the board;
    nothing else changes.  Left and right do not stop at the ends of a row:
    they carry on in the next or the previous row. *)
Theorem key_arrow_moves (s : session) (sel : nat) (d : Z) :
  selected s = Some sel → sel < 81 → d ∈ [-1; 1; -9; 9]%Z →
  key_arrow true d s = s ∧
  ∃ sel', selected (key_arrow false d s) = Some sel' ∧ sel' < 81 ∧
    Z.of_nat sel' =
      (if decide (0 ≤ Z.of_nat sel + d < 81)%Z then Z.of_nat sel + d
       else Z.of_nat sel)%Z ∧
    state (key_arrow false d s) = state s ∧
    history (key_arrow false d s) = history s ∧
    mistakes (key_arrow false d s) = mistakes s ∧
    prefilled (key_arrow false d s) = prefilled s ∧
    (d = 1%Z → col sel = 8 → sel < 80 → row sel' = row sel + 1 ∧ col sel' = 0) ∧
    (d = (-1)%Z → col sel = 0 → 0 < sel → row sel' + 1 = row sel ∧ col sel' = 8) ∧
    (d = 9%Z → row sel = 8 → sel' = sel) ∧
    (d = (-9)%Z → row sel = 0 → sel' = sel).
Proof.
  intros Hsel Hlt Hd. split; [done|]. unfold key_arrow. rewrite Hsel.
  destruct ((0 <=? Z.of_nat sel + d)%Z && (Z.of_nat sel + d <? 81)%Z) eqn:E.
  - apply andb_true_iff in E as [E1%Z.leb_le E2%Z.ltb_lt].
    exists (Z.to_nat (Z.of_nat sel + d)). cbn [selected state history mistakes prefilled].
    rewrite decide_True by lia. unfold row, col.
    split_and!; [done | lia | lia | done | done | done | done | intros -> ..]; lia.
  - exists sel. rewrite Hsel. unfold row, col.
    assert (¬ (0 ≤ Z.of_nat sel + d < 81)%Z) as Hout.
    { apply andb_false_iff in E as [E%Z.leb_gt|E%Z.ltb_ge]; lia. }
    rewrite decide_False by done.
    split_and!; [done | lia | lia | done | done | done | done | intros -> ..]; lia.
Qed.

Lemma key_arrow_moves_witness :
  key_arrow true 1 (cell_click 8 demo) = cell_click 8 demo ∧
  ∃ sel', selected (key_arrow false 1 (cell_click 8 demo)) = Some sel' ∧ sel' < 81 ∧
    Z.of_nat sel' =
      (if decide (0 ≤ Z.of_nat 8 + 1 < 81)%Z then Z.of_nat 8 + 1
       else Z.of_nat 8)%Z ∧
    state (key_arrow false 1 (cell_click 8 demo)) = state (cell_click 8 demo) ∧
    history (key_arrow false 1 (cell_click 8 demo)) = history (cell_click 8 demo) ∧
    mistakes (key_arrow false 1 (cell_click 8 demo)) = mistakes (cell_click 8 demo) ∧
    prefilled (key_arrow false 1 (cell_click 8 demo)) = prefilled (cell_click 8 demo) ∧
    (1%Z = 1%Z → col 8 = 8 → 8 < 80 → row sel' = row 8 + 1 ∧ col sel' = 0) ∧
    (1%Z = (-1)%Z → col 8 = 0 → 0 < 8 → row sel' + 1 = row 8 ∧ col sel' = 8) ∧
    (1%Z = 9%Z → row 8 = 8 → sel' = 8) ∧
    (1%Z = (-9)%Z → row 8 = 0 → sel' = 8).
Proof.
  apply (key_arrow_moves (cell_click 8 demo) 8 1); [reflexivity | lia | set_solver].
Defined.

Lemma conflicts_checkWin (s : session) : conflicts (checkWin s) = conflicts s.
Proof. unfold checkWin. by destruct (isSolved s). Qed.

(** X20: after the input handler has written to a free cell, the red mark
    on that cell tells whether the number is wrong (not empty and not the
    solution's), whatever the other cells hold, while the mark on every
    other cell tells whether that cell holds a number found again in its
    row, column or block; the mistake counter goes up by one exactly when
    the number is wrong. *)
Theorem cell_input_marks (s : session) (idx : nat) (num : Z) :
  is_prefilled s idx = false → idx < 81 →
  state (cell_input idx num s) = <[idx:=num]> (state s) ∧
  (idx ∈ conflicts (cell_input idx num s) ↔
     num ≠ 0%Z ∧ solution s !! idx ≠ Some num) ∧
  (∀ i, i ≠ idx →
     i ∈ conflicts (cell_input idx num s) ↔
     ∃ j, duplicate (state (cell_input idx num s)) i j) ∧
  (mistakes (cell_input idx num s) = mistakes s + 1 ↔
     num ≠ 0%Z ∧ solution s !! idx ≠ Some num) ∧
  (mistakes (cell_input idx num s) = mistakes s ↔
     ¬ (num ≠ 0%Z ∧ solution s !! idx ≠ Some num)).
Proof.
  intros Hfree Hidx. unfold cell_input. rewrite Hfree.
  set (s1 := Session _ _ _ _ _ _ _ _).
  destruct (checkWin_fields s1) as (_ & -> & _ & _ & -> & _).
  rewrite conflicts_checkWin. cbn [s1 state conflicts mistakes].
  assert (negb (num =? 0)%Z && negb (cell_is (solution s) idx num) = true ↔
          num ≠ 0%Z ∧ solution s !! idx ≠ Some num) as Hwrong.
  { rewrite andb_true_iff, !negb_true_iff, Z.eqb_neq, cell_is_false. done. }
  destruct (negb (num =? 0)%Z && negb (cell_is (solution s) idx num)).
  - assert (num ≠ 0%Z ∧ solution s !! idx ≠ Some num) as Hw by (by apply Hwrong).
    split_and!; [done | | | |].
    + split; [done | set_solver].
    + intros i Hi. rewrite elem_of_union, elem_of_singleton, updateConflicts_elem. tauto.
    + done.
    + split; [lia | done].
  - assert (¬ (num ≠ 0%Z ∧ solution s !! idx ≠ Some num)) as Hw
      by (intros ?%Hwrong; done).
    split_and!; [done | | | |].
    + split; [set_solver | done].
    + intros i Hi. rewrite elem_of_difference, elem_of_singleton, updateConflicts_elem. tauto.
    + split; [lia | done].
    + done.
Qed.

Lemma cell_input_marks_witness :
  state (cell_input 23 5 demo) = <[23:=5%Z]> (state demo) ∧
  (23 ∈ conflicts (cell_input 23 5 demo) ↔
     5%Z ≠ 0%Z ∧ solution demo !! 23 ≠ Some 5%Z) ∧
  (∀ i, i ≠ 23 →
     i ∈ conflicts (cell_input 23 5 demo) ↔
     ∃ j, duplicate (state (cell_input 23 5 demo)) i j) ∧
  (mistakes (cell_input 23 5 demo) = mistakes demo + 1 ↔
     5%Z ≠ 0%Z ∧ solution demo !! 23 ≠ Some 5%Z) ∧
  (mistakes (cell_input 23 5 demo) = mistakes demo ↔
     ¬ (5%Z ≠ 0%Z ∧ solution demo !! 23 ≠ Some 5%Z)).
Proof. apply (cell_input_marks demo 23 5); [reflexivity | lia]. Defined.

(** X21: in a reachable session, typing into a free cell announces the
    win exactly when the board has become the solution; a winning entry
    never counts as a mistake and never shows "Wrong number". *)
Theorem cell_input_wins (s : session) (idx : nat) (num : Z) :
  reachable s → is_prefilled s idx = false → idx < 81 →
  (statusMsg (cell_input idx num s) = "🎉 Puzzle complete — well done!" ↔
     <[idx:=num]> (state s) = solution s) ∧
  (isSolved (cell_input idx num s) = true ↔
     <[idx:=num]> (state s) = solution s) ∧
  (<[idx:=num]> (state s) = solution s →
     mistakes (cell_input idx num s) = mistakes s) ∧
  (<[idx:=num]> (state s) ≠ solution s →
     statusMsg (cell_input idx num s) = "Wrong number" ∨
     statusMsg (cell_input idx num s) = "").
Proof.
  intros Hreach Hfree Hidx. pose proof (reachable_inv s Hreach) as Hinv.
  unfold cell_input. rewrite Hfree. set (s1 := Session _ _ _ _ _ _ _ _).
  assert (session_inv s1) as Hinv1.
  { apply session_inv_write; [done | done | done | by destruct Hinv as (_ & _ & _ & _ & ?) |].
    intros e He. cbn [s1 history] in He.
    destruct (decide (state s !!! idx ≠ num)); [apply elem_of_cons in He as [->|?]|]; auto. }
  destruct (isSolved_inv s1 Hinv1) as [Hsolved _]. cbn [s1 state solution] in Hsolved.
  destruct (checkWin_fields s1) as (_ & _ & _ & _ & Em & _).
  rewrite isSolved_checkWin, Em. unfold checkWin.
  assert (<[idx:=num]> (state s) = solution s → solution s !! idx = Some num) as Hnum.
  { intros <-. apply list_lookup_insert_eq.
    destruct Hinv as ((_ & ? & _) & _). lia. }
  assert (solution s !! idx = Some num → num ≠ 0%Z) as Hnz.
  { intros Hn ->. destruct Hinv as (_ & (_ & Hv & _) & _).
    destruct (Hv idx Hidx) as (v & Hv' & ?). rewrite Hn in Hv'. injection Hv'. lia. }
  destruct (isSolved s1) eqn:E.
  - pose proof (proj1 Hsolved eq_refl) as Heq.
    split_and!; [done | done | | done].
    intros _. cbn [s1 mistakes]. apply Hnum in Heq as Hn.
    apply cell_is_spec in Hn as Hc. rewrite Hc. by rewrite andb_false_r.
  - assert (<[idx:=num]> (state s) ≠ solution s) as Hne
      by (intros ?%Hsolved; done).
    cbn [s1 statusMsg]. split_and!; [| done | done |].
    + split; [|done]. by destruct (_ && _).
    + intros _. destruct (_ && _); auto.
Qed.

Lemma cell_input_wins_witness :
  (statusMsg (cell_input 23 9 demo) = "🎉 Puzzle complete — well done!" ↔
     <[23:=9%Z]> (state demo) = solution demo) ∧
  (isSolved (cell_input 23 9 demo) = true ↔
     <[23:=9%Z]> (state demo) = solution demo) ∧
  (<[23:=9%Z]> (state demo) = solution demo →
     mistakes (cell_input 23 9 demo) = mistakes demo) ∧
  (<[23:=9%Z]> (state demo) ≠ solution demo →
     statusMsg (cell_input 23 9 demo) = "Wrong number" ∨
     statusMsg (cell_input 23 9 demo) = "").
Proof.
  apply (cell_input_wins demo 23 9); [|reflexivity|lia].
  apply (reach_load 1 r0). vm_compute. reflexivity.
Defined.

(** ** The functions at work *)

Example shuffle_digits : (shuffle digits r0).1 = [5; 7; 6; 8; 2; 1; 9; 3; 4]%Z.
Proof. reflexivity. Qed.

Example valid_empty_cell : valid (<[0:=0%Z]> reference) 0 5 = true.
Proof. reflexivity. Qed.

Example solve_refills_cell :
  solve 0 [<[0:=0%Z]> reference] =
  Done (Some 1, [<[0:=0%Z]> reference; reference]).
Proof. by vm_compute. Qed.

Example solve_fails :
  solve 0 [<[0:=0%Z]> (<[9:=5%Z]> (<[1:=5%Z]> reference))] =
  Done (None, [<[0:=0%Z]> (<[9:=5%Z]> (<[1:=5%Z]> reference));
               <[0:=0%Z]> (<[9:=5%Z]> (<[1:=5%Z]> reference))]).
Proof. by vm_compute. Qed.

Example conflicts_spoiled : updateConflicts spoiled = {[0; 1; 72]}.
Proof. by vm_compute. Qed.

Example demo_one_empty_cell : incorrect demo = [23] ∧ count_zeros (state demo) = 1.
Proof. by vm_compute. Qed.

Example hint_solves_demo :
  state (giveHint 7 demo) = solution demo ∧ isSolved (giveHint 7 demo) = true.
Proof. by vm_compute. Qed.

Example hint_clears_lock :
  is_prefilled locked_gap 0 = true ∧
  is_prefilled (giveHint 7 locked_gap) 0 = false ∧
  is_prefilled (giveHint 7 locked_gap) 1 = true ∧
  state (giveHint 7 locked_gap) = reference.
Proof. by vm_compute. Qed.

Example arrow_key_and_focus :
  selected (key_arrow true 1 (cell_click 23 demo)) = Some 23 ∧
  selected (key_arrow false 1 (cell_click 8 demo)) = Some 9.
Proof. by vm_compute. Qed.
